(** * Reziser: fitting an image into the 3000x3000 canvas, and the batch driver

    A shallow embedding of [reziser.py].  The arithmetic of [resize_image]
    is Python arithmetic: [/] on two ints is the IEEE-754 binary64 quotient,
    [int * float] converts the int to binary64 and multiplies, [int(x)]
    truncates.  Binary64 is taken from the Standard Library's executable
    specification [SpecFloat] (precision 53, exponent bound 1024, round to
    nearest even), so every definition below computes.

    The Pillow calls are kept at the level the program observes: an image
    carries its size, its mode, the keys of its [info] dictionary and a
    symbolic description of its pixels.  Two refusals of Pillow are part
    of the model: [Image.open] does not identify a file whose header gives
    a width or a height below 1, and [Image.resize] raises on a requested
    size with a side below 1.  Whether a Pillow call raises for any other
    reason is not decided here; it is a parameter ([pil_raises]) of the
    driver, and so is whether a save that raises had already emptied the
    output file.

    The file system is a tree of directories and files; a path is the list
    of its components.  Glob matching is the case-sensitive one of POSIX
    systems. *)

From Stdlib Require Import ZArith QArith Qround Qpower Qminmax Lia Lqa.
From Stdlib Require Import List String Ascii Bool.
From Stdlib Require Import SpecFloat.
Import ListNotations.

Open Scope string_scope.
Open Scope Z_scope.

(** ** Exceptions *)

Inductive exn :=
| ZeroDivisionError
| OverflowError
| ValueError
| FileNotFoundError
| IsADirectoryError
| UnidentifiedImageError
| PillowError.

Inductive result (A : Type) :=
| Ok (a : A)
| Raise (e : exn).

Arguments Ok {A} a.
Arguments Raise {A} e.

Definition bind {A B} (c : result A) (k : A -> result B) : result B :=
  match c with
  | Ok a => k a
  | Raise e => Raise e
  end.

Notation "x <- c ;; k" := (bind c (fun x => k))
  (at level 61, c at next level, right associativity).
Notation "' pat <- c ;; k" := (bind c (fun x => match x with pat => k end))
  (at level 61, pat pattern, c at next level, right associativity).

(** ** Python floats *)

Module PyFloat.

Definition prec : Z := 53.
Definition emax : Z := 1024.

Definition float := spec_float.

(** [float(n)]: the nearest binary64, [OverflowError] beyond the range. *)
Definition of_int (n : Z) : result float :=
  match binary_normalize prec emax n 0 false with
  | S754_infinity _ => Raise OverflowError
  | x => Ok x
  end.

(** [a / b] on two ints.  Below 2^53 both operands convert exactly and
    CPython divides the two doubles. *)
Definition true_div (a b : Z) : result float :=
  if b =? 0 then Raise ZeroDivisionError
  else
    x <- of_int a ;;
    y <- of_int b ;;
    Ok (SFdiv prec emax x y).

(** [n * x] with [n] an int and [x] a float. *)
Definition int_mul (n : Z) (x : float) : result float :=
  y <- of_int n ;;
  Ok (SFmul prec emax y x).

(** [min(a, b)]: the builtin keeps its first argument unless the second
    is strictly smaller. *)
Definition min2 (a b : float) : float :=
  if SFltb b a then b else a.

(** [int(x)]: truncation toward zero. *)
Definition to_int (x : float) : result Z :=
  match x with
  | S754_nan => Raise ValueError
  | S754_infinity _ => Raise OverflowError
  | S754_zero _ => Ok 0
  | S754_finite s m e => Ok (cond_Zopp s (Z.shiftl (Z.pos m) e))
  end.

(** The rational a float stands for (0 for the non-finite ones). *)
Definition to_Q (x : float) : Q :=
  match x with
  | S754_finite s m e => (inject_Z (cond_Zopp s (Z.pos m)) * 2 ^ e)%Q
  | _ => 0%Q
  end.

(** A positive float with a full 53-digit mantissa. *)
Definition normal (x : float) : Prop :=
  match x with
  | S754_finite false m _ => 2 ^ 52 <= Z.pos m < 2 ^ 53
  | _ => False
  end.

Definition expo (x : float) : Z :=
  match x with
  | S754_finite _ _ e => e
  | _ => 0
  end.

(** One part in 2^52, the relative error allowed to one operation. *)
Definition u : Q := 1 # 4503599627370496.

End PyFloat.

(** ** Images as Pillow shows them to the program *)

Definition path := list string.

Inductive pixels :=
| Stored (tag : Z)
| Solid (color : list Z)
| Resampled (src : pixels) (size : Z * Z)
| Converted (src : pixels) (mode : string)
| Pasted (canvas src : pixels) (src_size : Z * Z) (offset : Z * Z).

Record Image := {
  size : Z * Z;
  mode : string;
  info : list string;
  data : pixels
}.

Inductive pil_call :=
| CallResize (im : Image) (sz : Z * Z)
| CallConvert (im : Image) (m : string)
| CallNew (m : string) (sz : Z * Z) (color : list Z)
| CallPaste (canvas im : Image) (offset : Z * Z)
| CallSave (im : Image) (p : path)
| SaveEmptiedOutput (im : Image) (p : path).

(** ** The file system *)

#[warnings="-register-all"]
Inductive node :=
| File (content : option Image)
| Dir (entries : list (string * node)).

Fixpoint assoc {A} (k : string) (l : list (string * A)) : option A :=
  match l with
  | [] => None
  | (k', v) :: tl => if String.eqb k k' then Some v else assoc k tl
  end.

Fixpoint assoc_set {A} (k : string) (v : A) (l : list (string * A))
  : list (string * A) :=
  match l with
  | [] => [(k, v)]
  | (k', v') :: tl =>
      if String.eqb k k' then (k, v) :: tl else (k', v') :: assoc_set k v tl
  end.

Fixpoint lookup (n : node) (p : path) : option node :=
  match p with
  | [] => Some n
  | name :: rest =>
      match n with
      | Dir es =>
          match assoc name es with
          | Some c => lookup c rest
          | None => None
          end
      | File _ => None
      end
  end.

Definition isfile (n : node) (p : path) : bool :=
  match lookup n p with
  | Some (File _) => true
  | _ => false
  end.

Definition isdir (n : node) (p : path) : bool :=
  match lookup n p with
  | Some (Dir _) => true
  | _ => false
  end.

(** Writing a file, with an image or with bytes that are none: the
    parent must be a directory and the target must not be one. *)
Fixpoint write (n : node) (p : path) (content : option Image)
  : result node :=
  match p, n with
  | [], _ => Raise IsADirectoryError
  | _, File _ => Raise FileNotFoundError
  | [name], Dir es =>
      match assoc name es with
      | Some (Dir _) => Raise IsADirectoryError
      | _ => Ok (Dir (assoc_set name (File content) es))
      end
  | name :: rest, Dir es =>
      match assoc name es with
      | Some c =>
          c' <- write c rest content ;;
          Ok (Dir (assoc_set name c' es))
      | None => Raise FileNotFoundError
      end
  end.

(** ** Names, suffixes and patterns *)

Definition lower_ascii (c : ascii) : ascii :=
  let n := nat_of_ascii c in
  if (Nat.leb 65 n && Nat.leb n 90)%bool then ascii_of_nat (n + 32) else c.

(** [str.lower] on the ASCII range. *)
Fixpoint lower (s : string) : string :=
  match s with
  | EmptyString => EmptyString
  | String c s' => String (lower_ascii c) (lower s')
  end.

(** [name.rfind('.')] *)
Fixpoint rfind_dot (s : string) : option nat :=
  match s with
  | EmptyString => None
  | String c s' =>
      match rfind_dot s' with
      | Some i => Some (S i)
      | None => if Ascii.eqb c "." then Some 0%nat else None
      end
  end.

Definition name_of (p : path) : string := last p "".

Definition parent (p : path) : path := removelast p.

(** [PurePath.suffix] and [PurePath.stem] on the final component. *)
Definition suffix (name : string) : string :=
  match rfind_dot name with
  | Some i =>
      if (Nat.ltb 0 i && Nat.ltb i (String.length name - 1))%bool
      then substring i (String.length name - i) name
      else ""
  | None => ""
  end.

Definition stem (name : string) : string :=
  match rfind_dot name with
  | Some i =>
      if (Nat.ltb 0 i && Nat.ltb i (String.length name - 1))%bool
      then substring 0 i name
      else name
  | None => name
  end.

(** Matching one path component against a pattern with [*] and [?]; every
    other character stands for itself, and case matters. *)
Fixpoint fnmatch (pat : string) : string -> bool :=
  match pat with
  | EmptyString =>
      fun s => match s with EmptyString => true | _ => false end
  | String c pat' =>
      if Ascii.eqb c "*" then
        fix star (s : string) : bool :=
          (fnmatch pat' s
           || match s with
              | EmptyString => false
              | String _ s' => star s'
              end)%bool
      else if Ascii.eqb c "?" then
        fun s => match s with
                 | String _ s' => fnmatch pat' s'
                 | EmptyString => false
                 end
      else
        fun s => match s with
                 | String c' s' => (Ascii.eqb c c' && fnmatch pat' s')%bool
                 | EmptyString => false
                 end
  end.

(** The entries of a directory listing that match, as paths below [pre]. *)
Definition matching (pat : string) (pre : path) (es : list (string * node))
  : list path :=
  map (fun e => (pre ++ [fst e])%list)
      (filter (fun e => fnmatch pat (fst e)) es).

(** [Path.glob(pat)]: the direct children that match. *)
Definition glob (root : node) (folder : path) (pat : string) : list path :=
  match lookup root folder with
  | Some (Dir es) => matching pat folder es
  | _ => []
  end.

(** [Path.rglob(pat)]: the matches of every directory of the subtree. *)
Fixpoint walk (pat : string) (pre : path) (n : node) : list path :=
  match n with
  | File _ => []
  | Dir es =>
      (matching pat pre es
       ++ (fix sub (l : list (string * node)) : list path :=
             match l with
             | [] => []
             | (name, c) :: tl => walk pat (pre ++ [name]) c ++ sub tl
             end) es)%list
  end.

Definition rglob (root : node) (folder : path) (pat : string) : list path :=
  match lookup root folder with
  | Some n => walk pat folder n
  | None => []
  end.

(** A pattern without [*] and [?]. *)
Fixpoint literal (s : string) : bool :=
  match s with
  | EmptyString => true
  | String c s' =>
      (negb (Ascii.eqb c "*") && negb (Ascii.eqb c "?") && literal s')%bool
  end.

(** [ext] closes [s]. *)
Fixpoint ends_with (s ext : string) : bool :=
  (String.eqb s ext
   || match s with
      | EmptyString => false
      | String _ s' => ends_with s' ext
      end)%bool.

(** The names of every entry below a node, at any depth. *)
Fixpoint names_below (n : node) : list string :=
  match n with
  | File _ => []
  | Dir es =>
      (map fst es
       ++ (fix sub (l : list (string * node)) : list string :=
             match l with
             | [] => []
             | (_, c) :: tl => names_below c ++ sub tl
             end) es)%list
  end.

(** The names a listing of [folder] goes through. *)
Definition listed_names (root : node) (folder : path) (recursive : bool)
  : list string :=
  match lookup root folder with
  | Some (Dir es) => if recursive then names_below (Dir es) else map fst es
  | _ => []
  end.

(** ** The program *)

Definition TARGET_SIZE : Z := 3000.

(** A set in the source; the globs of [process_folder] are taken here in
    the order of this list. *)
Definition SUPPORTED_FORMATS : list string :=
  [".jpg"; ".jpeg"; ".png"; ".gif"; ".bmp"; ".tiff"; ".webp"].

(** What the program prints, one constructor per message. *)
Inductive message :=
| Resized (input_path output_path : path)
| ErrorProcessing (input_path : path) (e : exn)
| FileNotFound (file_path : path)
| UnsupportedFormat (file_path : path)
| FolderNotFound (folder_path : path)
| NoSupportedImages (folder_path : path)
| Found (count : Z)
| Rule (after_blank_line : bool)
| Summary (total_success total_failure : Z).

Record world := {
  fs : node;
  stdout : list message
}.

Definition print (m : message) (w : world) : world :=
  {| fs := fs w; stdout := (stdout w ++ [m])%list |}.

(** Lines 44-48 of [resize_image]: the scale factor and the scaled size. *)
Definition compute_scale (original_width original_height : Z)
  : result PyFloat.float :=
  a <- PyFloat.true_div TARGET_SIZE original_width ;;
  b <- PyFloat.true_div TARGET_SIZE original_height ;;
  Ok (PyFloat.min2 a b).

Definition scaled_size (original_width original_height : Z)
  : result (Z * Z) :=
  scale <- compute_scale original_width original_height ;;
  pw <- PyFloat.int_mul original_width scale ;;
  new_width <- PyFloat.to_int pw ;;
  ph <- PyFloat.int_mul original_height scale ;;
  new_height <- PyFloat.to_int ph ;;
  Ok (new_width, new_height).

(** Line 55: the test that selects the transparent canvas. *)
Definition wants_alpha (img : Image) : bool :=
  (existsb (String.eqb (mode img)) ["RGBA"; "LA"]
   || (String.eqb (mode img) "P"
       && existsb (String.eqb "transparency") (info img)))%bool.

(** Lines 69-70: the position of the scaled image, [//] being floor
    division. *)
Definition offsets (new_width new_height : Z) : Z * Z :=
  ((TARGET_SIZE - new_width) / 2, (TARGET_SIZE - new_height) / 2).

(** Lines 76-79: the default output path. *)
Definition default_output (input_path : path) : path :=
  (parent input_path
   ++ [(stem (name_of input_path) ++ "_3000x3000.png")%string])%list.

Definition output_path_of (input_path : path) (output_path : option path)
  : path :=
  match output_path with
  | None => default_output input_path
  | Some p => p
  end.

(** Line 93. *)
Definition is_supported_image (file_path : path) : bool :=
  existsb (String.eqb (lower (suffix (name_of file_path))))
          SUPPORTED_FORMATS.

(** Lines 146-153: one glob per supported extension. *)
Definition find_images (root : node) (folder : path) (recursive : bool)
  : list path :=
  flat_map
    (fun ext =>
       if recursive then rglob root folder ("*" ++ ext)
       else glob root folder ("*" ++ ext))
    SUPPORTED_FORMATS.

(** A name that ends in a supported extension, whatever its case. *)
Definition has_supported_ext (name : string) : bool :=
  existsb (ends_with (lower name)) SUPPORTED_FORMATS.

(** Sizes a double holds exactly; Pillow keeps a size in C ints, far
    below. *)
Definition exact_dim (n : Z) : Prop := 0 < n < 2 ^ 53.

(** [float(3000)]. *)
Definition target_float : PyFloat.float :=
  S754_finite false 6597069766656000 (-41).

(** The image [resize_image] saves for a source [img] scaled to
    [new_width] x [new_height], when no call raises. *)
Definition composite (img : Image) (new_width new_height : Z) : Image :=
  let m := if wants_alpha img then "RGBA" else "RGB" in
  let fill := if wants_alpha img then [0; 0; 0; 0] else [0; 0; 0] in
  let resampled := Resampled (data img) (new_width, new_height) in
  {| size := (TARGET_SIZE, TARGET_SIZE);
     mode := m;
     info := [];
     data := Pasted (Solid fill)
                    (if String.eqb (mode img) m then resampled
                     else Converted resampled m)
                    (new_width, new_height)
                    (offsets new_width new_height) |}.

Section Driver.

(** Whether a call into Pillow raises for a reason of its own; for
    [SaveEmptiedOutput], whether a save that raises had opened, and so
    emptied, the output file before. *)
Variable pil_raises : pil_call -> bool.

Definition pil {A} (c : pil_call) (v : A) : result A :=
  if pil_raises c then Raise PillowError else Ok v.

(** [Image.open]: no decoder of Pillow identifies a file whose header
    gives a width or a height below 1. *)
Definition Image_open (root : node) (p : path) : result Image :=
  match lookup root p with
  | Some (File (Some img)) =>
      if ((fst (size img) <? 1) || (snd (size img) <? 1))%bool
      then Raise UnidentifiedImageError
      else Ok img
  | Some (File None) => Raise UnidentifiedImageError
  | Some (Dir _) => Raise IsADirectoryError
  | None => Raise FileNotFoundError
  end.

(** [Image.resize]: the source is loaded, then a requested size with a
    side below 1 is refused ("height and width must be > 0"). *)
Definition Image_resize (img : Image) (sz : Z * Z) : result Image :=
  _ <- pil (CallResize img sz) tt ;;
  if ((fst sz <? 1) || (snd sz <? 1))%bool then Raise ValueError
  else Ok {| size := sz; mode := mode img; info := info img;
             data := Resampled (data img) sz |}.

Definition Image_convert (img : Image) (m : string) : result Image :=
  pil (CallConvert img m)
      {| size := size img; mode := m; info := info img;
         data := Converted (data img) m |}.

Definition Image_new (m : string) (sz : Z * Z) (color : list Z)
  : result Image :=
  pil (CallNew m sz color)
      {| size := sz; mode := m; info := []; data := Solid color |}.

Definition Image_paste (canvas img : Image) (offset : Z * Z)
  : result Image :=
  pil (CallPaste canvas img offset)
      {| size := size canvas; mode := mode canvas; info := info canvas;
         data := Pasted (data canvas) (data img) (size img) offset |}.

(** [Image.save]: the file system afterwards and the outcome.  Pillow
    opens the output file for writing before it encodes, so a save that
    raises can leave the output emptied. *)
Definition Image_save (root : node) (img : Image) (p : path)
  : node * result unit :=
  if pil_raises (CallSave img p) then
    ((if pil_raises (SaveEmptiedOutput img p) then
        match write root p None with
        | Ok root' => root'
        | Raise _ => root
        end
      else root),
     Raise PillowError)
  else
    match write root p (Some img) with
    | Ok root' => (root', Ok tt)
    | Raise e => (root, Raise e)
    end.

(** The [try] block of [resize_image] up to the save: the image to save
    and where. *)
Definition resize_body (root : node) (input_path : path)
           (output_path : option path) : result (Image * path) :=
  img <- Image_open root input_path ;;
  let '(original_width, original_height) := size img in
  '(new_width, new_height) <- scaled_size original_width original_height ;;
  resized_img <- Image_resize img (new_width, new_height) ;;
  '(new_img, resized_img) <-
    (if wants_alpha img then
       new_img <- Image_new "RGBA" (TARGET_SIZE, TARGET_SIZE) [0; 0; 0; 0] ;;
       resized_img <-
         (if negb (String.eqb (mode resized_img) "RGBA")
          then Image_convert resized_img "RGBA"
          else Ok resized_img) ;;
       Ok (new_img, resized_img)
     else
       new_img <- Image_new "RGB" (TARGET_SIZE, TARGET_SIZE) [0; 0; 0] ;;
       resized_img <-
         (if negb (String.eqb (mode resized_img) "RGB")
          then Image_convert resized_img "RGB"
          else Ok resized_img) ;;
       Ok (new_img, resized_img)) ;;
  let '(x_offset, y_offset) := offsets new_width new_height in
  new_img <- Image_paste new_img resized_img (x_offset, y_offset) ;;
  let output_path := output_path_of input_path output_path in
  Ok (new_img, output_path).

(** [resize_image]: the save closes the [try] block; whatever is raised
    is printed and the answer is [False]. *)
Definition resize_image (input_path : path) (output_path : option path)
           (w : world) : bool * world :=
  match resize_body (fs w) input_path output_path with
  | Ok (new_img, out) =>
      match Image_save (fs w) new_img out with
      | (root', Ok _) =>
          (true, print (Resized input_path out)
                       {| fs := root'; stdout := stdout w |})
      | (root', Raise e) =>
          (false, print (ErrorProcessing input_path e)
                        {| fs := root'; stdout := stdout w |})
      end
  | Raise e => (false, print (ErrorProcessing input_path e) w)
  end.

Definition process_file (file_path : path) (w : world) : bool * world :=
  if negb (isfile (fs w) file_path) then
    (false, print (FileNotFound file_path) w)
  else if negb (is_supported_image file_path) then
    (false, print (UnsupportedFormat file_path) w)
  else resize_image file_path None w.

(** The counting loop, shared by [process_files] (over [process_file])
    and [process_folder] (over [resize_image]). *)
Fixpoint count_loop (step : path -> world -> bool * world)
         (paths : list path) (success_count failure_count : Z) (w : world)
  : (Z * Z) * world :=
  match paths with
  | [] => ((success_count, failure_count), w)
  | p :: rest =>
      let '(ok, w1) := step p w in
      if ok then count_loop step rest (success_count + 1) failure_count w1
      else count_loop step rest success_count (failure_count + 1) w1
  end.

Definition process_files (file_paths : list path) (w : world)
  : (Z * Z) * world :=
  count_loop process_file file_paths 0 0 w.

Definition process_folder (folder_path : path) (recursive : bool)
           (w : world) : (Z * Z) * world :=
  if negb (isdir (fs w) folder_path) then
    ((0, 0), print (FolderNotFound folder_path) w)
  else
    let image_files := find_images (fs w) folder_path recursive in
    match image_files with
    | [] => ((0, 0), print (NoSupportedImages folder_path) w)
    | _ =>
        let w1 := print (Found (Z.of_nat (List.length image_files))) w in
        count_loop (fun p => resize_image p None) image_files 0 0 w1
    end.

(** The batch branch of [main]: totals over the folders. *)
Fixpoint batch_loop (paths : list path) (recursive : bool)
         (total_success total_failure : Z) (w : world)
  : (Z * Z) * world :=
  match paths with
  | [] => ((total_success, total_failure), w)
  | folder_path :: rest =>
      let '((success, failure), w1) :=
        process_folder folder_path recursive w in
      batch_loop rest recursive (total_success + success)
                 (total_failure + failure) w1
  end.

(** [main] on the parsed arguments; the result is the exit status.  The
    positional [paths] are declared with [nargs='+']: without any,
    [parse_args] leaves with status 2 and nothing on standard output.
    [Rule] is the line of 50 equals signs, the first one after an empty
    line. *)
Definition main (paths : list path) (batch recursive : bool) (w : world)
  : Z * world :=
  match paths with
  | [] => (2, w)
  | _ :: _ =>
      let '((total_success, total_failure), w1) :=
        if batch then batch_loop paths recursive 0 0 w
        else
          let '((success, failure), w1) := process_files paths w in
          ((0 + success, 0 + failure), w1) in
      let w2 :=
        print (Rule false)
              (print (Summary total_success total_failure)
                     (print (Rule true) w1)) in
      ((if total_failure =? 0 then 0 else 1), w2)
  end.

End Driver.

(** ** Sample inputs *)

(** A Pillow none of whose calls raises. *)
Definition never : pil_call -> bool := fun _ => false.

Definition wide_rgb : Image :=
  {| size := (4000, 2000); mode := "RGB"; info := []; data := Stored 1 |}.

Definition small_rgba : Image :=
  {| size := (500, 300); mode := "RGBA"; info := []; data := Stored 2 |}.

Definition square_91 : Image :=
  {| size := (91, 91); mode := "RGB"; info := []; data := Stored 3 |}.

Definition zero_wide : Image :=
  {| size := (0, 100); mode := "RGB"; info := []; data := Stored 4 |}.

Definition photos : node :=
  Dir [("wide.png", File (Some wide_rgb));
       ("small.png", File (Some small_rgba));
       ("square.png", File (Some square_91));
       ("zero.png", File (Some zero_wide));
       ("docs", Dir [("readme.md", File None); ("notes.txt", File None)])].

Definition photos_world : world := {| fs := photos; stdout := [] |}.

Definition upper_only : world :=
  {| fs := Dir [("PHOTO.JPG", File (Some wide_rgb))]; stdout := [] |}.

Definition lower_only : world :=
  {| fs := Dir [("photo.jpg", File (Some wide_rgb))]; stdout := [] |}.

(** The composite of [small.png] written next to it. *)
Definition small_done : world :=
  snd (resize_image never ["small.png"] None photos_world).

(** A folder whose only entry is a directory with an image-like name. *)
Definition album_world : world :=
  {| fs := Dir [("album.jpg", Dir [])]; stdout := [] |}.

(** The names of the files (not the directories) directly in [folder]. *)
Definition file_names (root : node) (folder : path) : list string :=
  match lookup root folder with
  | Some (Dir es) =>
      map fst
          (filter (fun e => match snd e with
                            | File _ => true
                            | Dir _ => false
                            end) es)
  | _ => []
  end.

(** ** Further definitions *)

(** Sizes Pillow itself can hold: it keeps them in C ints. *)
Definition pillow_dim (n : Z) : Prop := 0 < n < 2 ^ 31.

(** The composite of [wide.png] written next to it. *)
Definition wide_done : world :=
  snd (resize_image never ["wide.png"] None photos_world).

(** A folder with images two directories down. *)
Definition album : node :=
  Dir [("cover.jpg", File (Some wide_rgb));
       ("trip", Dir [("day1", Dir [("beach.webp", File (Some small_rgba))])])].

Definition trip_world : world := {| fs := album; stdout := [] |}.

(** A Pillow whose save raises after it has opened the output file. *)
Definition save_fails : pil_call -> bool :=
  fun c =>
    match c with
    | CallSave _ _ | SaveEmptiedOutput _ _ => true
    | _ => false
    end.

(** A strip one pixel wide and 3001 high, and one two wide and 6002 high. *)
Definition strip : Image :=
  {| size := (1, 3001); mode := "RGB"; info := []; data := Stored 5 |}.

Definition ribbon : Image :=
  {| size := (2, 6002); mode := "RGB"; info := []; data := Stored 6 |}.

Definition strip_world : world :=
  {| fs := Dir [("strip.png", File (Some strip));
                ("ribbon.png", File (Some ribbon))];
     stdout := [] |}.

(** * Binary64 rounding in the normal range

    What [SpecFloat]'s rounding does to a mantissa of at least 53 digits
    whose result is neither subnormal nor infinite. *)

Module Binary64.

Import PyFloat.

Lemma digits2_size p : digits2_pos p = Pos.size p.
Proof. induction p; simpl; congruence. Qed.

Lemma digits2_bounds p :
  2 ^ (Z.pos (digits2_pos p) - 1) <= Z.pos p < 2 ^ Z.pos (digits2_pos p).
Proof.
  rewrite digits2_size.
  pose proof (Pos.size_gt p) as Hgt.
  pose proof (Pos.size_le p) as Hle.
  apply Pos2Z.pos_lt_pos in Hgt.
  apply Pos2Z.pos_le_pos in Hle.
  rewrite Pos2Z.inj_pow in Hgt, Hle.
  replace (Z.pos (Pos.size p)) with (Z.succ (Z.pos (Pos.size p) - 1)) in Hle
    by lia.
  rewrite Z.pow_succ_r in Hle by lia.
  lia.
Qed.

Lemma digits2_unique p k :
  2 ^ (k - 1) <= Z.pos p < 2 ^ k -> Z.pos (digits2_pos p) = k.
Proof.
  intros [Hlo Hhi].
  destruct (digits2_bounds p) as [Dlo Dhi].
  set (d := Z.pos (digits2_pos p)) in *.
  assert (0 < k).
  { destruct k as [|k|k]; [simpl in Hhi; lia | lia |].
    rewrite Z.pow_neg_r in Hhi by lia. lia. }
  destruct (Z.lt_trichotomy d k) as [Hlt | [Heq | Hgt]]; [|assumption|].
  - assert (2 ^ d <= 2 ^ (k - 1)) by (apply Z.pow_le_mono_r; lia). lia.
  - assert (2 ^ k <= 2 ^ (d - 1)) by (apply Z.pow_le_mono_r; lia). lia.
Qed.


Lemma shr_1_m mrs : 0 <= shr_m mrs -> shr_m (shr_1 mrs) = shr_m mrs / 2.
Proof.
  destruct mrs as [m r s]; cbn [shr_m]; intros Hm.
  destruct m as [|[p|p|]|p]; cbn [shr_1 shr_m]; try lia; try reflexivity.
  - apply (Z.div_unique (Z.pos p~1) 2 (Z.pos p) 1); lia.
  - apply (Z.div_unique (Z.pos p~0) 2 (Z.pos p) 0); lia.
Qed.

Lemma iter_shr_m p :
  forall mrs, 0 <= shr_m mrs ->
              shr_m (iter_pos shr_1 p mrs) = shr_m mrs / 2 ^ Z.pos p.
Proof.
  assert (P2 : forall q, 0 < 2 ^ Z.pos q) by (intros; apply Z.pow_pos_nonneg; lia).
  induction p as [p IH | p IH |]; intros mrs Hm; cbn [iter_pos].
  - assert (H1 : 0 <= shr_m (shr_1 mrs))
      by (rewrite shr_1_m by assumption; apply Z.div_pos; lia).
    assert (H2 : 0 <= shr_m (iter_pos shr_1 p (shr_1 mrs)))
      by (rewrite IH by assumption; apply Z.div_pos; auto).
    rewrite IH, IH, shr_1_m by assumption.
    rewrite !Z.div_div by (auto; lia).
    f_equal.
    replace (Z.pos p~1) with (1 + Z.pos p + Z.pos p) by lia.
    rewrite !Z.pow_add_r by lia. lia.
  - assert (H2 : 0 <= shr_m (iter_pos shr_1 p mrs))
      by (rewrite IH by assumption; apply Z.div_pos; auto).
    rewrite IH, IH by assumption.
    rewrite Z.div_div by (auto; lia).
    f_equal.
    replace (Z.pos p~0) with (Z.pos p + Z.pos p) by lia.
    rewrite Z.pow_add_r by lia. lia.
  - rewrite shr_1_m by assumption. reflexivity.
Qed.

Lemma round_nearest_even_range m l :
  m <= round_nearest_even m l <= m + 1.
Proof.
  destruct l as [|[| |]]; simpl; try destruct (Z.even m); lia.
Qed.

Lemma round_exact m : round_nearest_even m loc_Exact = m.
Proof. reflexivity. Qed.

(** The first step of rounding: drop the digits beyond the 53rd. *)
Lemma shr_fexp_normal m e l :
  0 < m -> 53 <= Zdigits2 m -> -1074 <= e + Zdigits2 m - 53 ->
  exists mrs,
    shr_fexp prec emax m e l = (mrs, e + (Zdigits2 m - 53))
    /\ shr_m mrs = m / 2 ^ (Zdigits2 m - 53)
    /\ (Zdigits2 m = 53 -> mrs = shr_record_of_loc m l).
Proof.
  intros Hm Hd He.
  unfold shr_fexp, fexp, emin, prec, emax.
  replace (Z.max (Zdigits2 m + e - 53) (3 - 1024 - 53) - e)
    with (Zdigits2 m - 53) by lia.
  assert (Hs : shr_m (shr_record_of_loc m l) = m)
    by (destruct l as [|[| |]]; reflexivity).
  destruct (Zdigits2 m - 53) as [|n|n] eqn:En; try lia; unfold shr.
  - exists (shr_record_of_loc m l). rewrite Z.add_0_r, Z.div_1_r. auto.
  - eexists. split; [reflexivity|]. split.
    + rewrite iter_shr_m by lia. rewrite Hs. reflexivity.
    + lia.
Qed.

(** Rounding a positive mantissa [mx] of [d >= 53] digits at exponent
    [ex]: the result is a normal float whose value lies between [mx]
    truncated to 53 digits and one unit in the last place above. *)
Lemma round_aux_normal mx ex lx :
  0 < mx -> 53 <= Zdigits2 mx ->
  -1074 <= ex + Zdigits2 mx - 53 -> ex + Zdigits2 mx - 53 < 971 ->
  exists m e k,
    binary_round_aux prec emax false mx ex lx = S754_finite false m e
    /\ 2 ^ 52 <= Z.pos m < 2 ^ 53
    /\ e = ex + k /\ Zdigits2 mx - 53 <= k <= Zdigits2 mx - 52
    /\ mx - 2 ^ (Zdigits2 mx - 53) < Z.pos m * 2 ^ k
       <= mx + 2 ^ (Zdigits2 mx - 53)
    /\ 2 ^ 52 * 2 ^ (Zdigits2 mx - 53) <= mx
    /\ (Zdigits2 mx = 53 -> lx = loc_Exact -> Z.pos m = mx /\ k = 0).
Proof.
  intros Hm Hd Hlo Hhi.
  destruct (shr_fexp_normal mx ex lx Hm Hd Hlo) as (mrs & E1 & M1 & X1).
  set (n := Zdigits2 mx - 53) in *.
  assert (Hn : 0 <= n) by (unfold n; lia).
  assert (P2n : 0 < 2 ^ n) by (apply Z.pow_pos_nonneg; lia).
  (* the truncated mantissa has exactly 53 digits *)
  assert (T1 : 2 ^ 52 <= mx / 2 ^ n < 2 ^ 53).
  { destruct mx as [|p|p]; try lia. simpl Zdigits2 in *.
    destruct (digits2_bounds p) as [Dlo Dhi].
    replace (Z.pos (digits2_pos p) - 1) with (52 + n) in Dlo by (unfold n; lia).
    replace (Z.pos (digits2_pos p)) with (53 + n) in Dhi by (unfold n; lia).
    rewrite Z.pow_add_r in Dlo, Dhi by lia.
    split.
    - apply Z.div_le_lower_bound; lia.
    - apply Z.div_lt_upper_bound; lia. }
  set (m1 := mx / 2 ^ n) in *.
  assert (F1 : m1 * 2 ^ n <= mx < (m1 + 1) * 2 ^ n).
  { pose proof (Z.div_mod mx (2 ^ n)) as DM.
    pose proof (Z.mod_pos_bound mx (2 ^ n) P2n) as MB.
    fold m1 in DM. nia. }
  pose proof (round_nearest_even_range (shr_m mrs) (loc_of_shr_record mrs)) as R.
  assert (Hex : Zdigits2 mx = 53 -> lx = loc_Exact ->
                round_nearest_even (shr_m mrs) (loc_of_shr_record mrs) = mx).
  { intros D53 LE. rewrite (X1 D53), LE. reflexivity. }
  unfold binary_round_aux. rewrite E1.
  set (m' := round_nearest_even (shr_m mrs) (loc_of_shr_record mrs)) in *.
  rewrite M1 in R.
  assert (Hm' : 0 < m') by lia.
  destruct (Z.eq_dec m' (2 ^ 53)) as [Etop | Ntop].
  - (* the carry: 2^53 is renormalised to 2^52 *)
    assert (D' : Zdigits2 m' = 54).
    { rewrite Etop. reflexivity. }
    destruct (shr_fexp_normal m' (ex + n) loc_Exact Hm') as (mrs2 & E2 & M2 & _);
      [lia | lia |].
    rewrite E2, M2, D', Etop.
    change (2 ^ 53 / 2 ^ (54 - 53)) with (Z.pos (Pos.pow 2 52)).
    replace (ex + n + (54 - 53) <=? emax - prec) with true
      by (symmetry; apply Z.leb_le; unfold emax, prec; lia).
    exists (Pos.pow 2 52), (ex + n + (54 - 53)), (n + 1).
    split; [reflexivity|]. split; [split; [reflexivity | reflexivity]|].
    split; [lia|]. split; [lia|]. split; [|split].
    + rewrite Z.pow_add_r by lia.
      change (Z.pos (2 ^ 52)) with (2 ^ 52).
      assert (m1 + 1 = 2 ^ 53) by lia.
      change (2 ^ 53) with (2 ^ 52 * 2) in H. nia.
    + nia.
    + intros D53 LE. exfalso.
      specialize (Hex D53 LE).
      assert (n = 0) by (unfold n; lia).
      unfold m1 in T1. rewrite H, Z.div_1_r in T1. lia.
  - assert (T' : 2 ^ 52 <= m' < 2 ^ 53) by lia.
    assert (D' : Zdigits2 m' = 53).
    { destruct m' as [|p|p]; try lia. simpl. apply digits2_unique. exact T'. }
    destruct (shr_fexp_normal m' (ex + n) loc_Exact Hm') as (mrs2 & E2 & M2 & X2);
      [lia | lia |].
    rewrite E2, M2, D'. change (2 ^ (53 - 53)) with 1. rewrite Z.div_1_r.
    destruct m' as [|p|p] eqn:Ep; try lia.
    replace (ex + n + (53 - 53) <=? emax - prec) with true
      by (symmetry; apply Z.leb_le; unfold emax, prec; lia).
    exists p, (ex + n + (53 - 53)), n.
    split; [reflexivity|]. split; [exact T'|].
    split; [lia|]. split; [lia|]. split; [|split].
    + nia.
    + nia.
    + intros D53 LE. split; [|unfold n; lia].
      specialize (Hex D53 LE). lia.
Qed.


Lemma digits53 m : 2 ^ 52 <= Z.pos m < 2 ^ 53 -> Zdigits2 (Z.pos m) = 53.
Proof. intros H. apply digits2_unique. exact H. Qed.

(** [float(w)] is exact below 2^53. *)
Lemma of_int_exact w :
  0 < w < 2 ^ 53 ->
  exists m e,
    of_int w = Ok (S754_finite false m e)
    /\ 2 ^ 52 <= Z.pos m < 2 ^ 53
    /\ -52 <= e <= 0
    /\ Z.pos m = w * 2 ^ (- e).
Proof.
  intros [Hw0 Hw1].
  destruct w as [|p|p]; try lia.
  unfold of_int, binary_normalize, binary_round.
  destruct (digits2_bounds p) as [Dlo Dhi].
  set (d := Z.pos (digits2_pos p)) in *.
  assert (Hd : 1 <= d <= 53).
  { split; [unfold d; lia|].
    destruct (Z.le_gt_cases d 53) as [|Hgt]; [assumption|].
    assert (2 ^ 53 <= 2 ^ (d - 1)) by (apply Z.pow_le_mono_r; lia). lia. }
  unfold fexp, emin, prec, emax.
  replace (Z.max (d + 0 - 53) (3 - 1024 - 53)) with (d - 53) by lia.
  unfold shl_align.
  destruct (d - 53 - 0) as [|k|k] eqn:Ek; try lia.
  - assert (C : 2 ^ 52 <= Z.pos p < 2 ^ 53).
    { replace (d - 1) with 52 in Dlo by lia. lia. }
    destruct (round_aux_normal (Z.pos p) 0 loc_Exact)
      as (m & e & k & E & Cm & Ee & Hk & _ & _ & X);
      rewrite ?(digits53 p C); try lia.
    destruct (X (digits53 p C) eq_refl) as [Xm Xk].
    unfold prec, emax in E |- *. rewrite E.
    exists m, e. repeat split; try lia.
    replace (- e) with 0 by lia. lia.
  - assert (Pk : 0 < 2 ^ Z.pos k) by (apply Z.pow_pos_nonneg; lia).
    assert (Em : Z.pos (Pos.iter xO p k) = Z.pos p * 2 ^ Z.pos k).
    { change (Pos.iter xO p k) with (shift_pos k p).
      rewrite shift_pos_correct. change (Z.pow_pos 2 k) with (2 ^ Z.pos k).
      lia. }
    assert (C : 2 ^ 52 <= Z.pos (Pos.iter xO p k) < 2 ^ 53).
    { rewrite Em.
      assert (E52 : 2 ^ 52 = 2 ^ (d - 1) * 2 ^ Z.pos k)
        by (rewrite <- Z.pow_add_r by lia; f_equal; lia).
      assert (E53 : 2 ^ 53 = 2 ^ d * 2 ^ Z.pos k)
        by (rewrite <- Z.pow_add_r by lia; f_equal; lia).
      rewrite E52, E53. nia. }
    destruct (round_aux_normal (Z.pos (Pos.iter xO p k)) (d - 53) loc_Exact)
      as (m & e & k' & E & Cm & Ee & Hk & _ & _ & X);
      rewrite ?(digits53 _ C); try lia.
    destruct (X (digits53 _ C) eq_refl) as [Xm Xk].
    unfold prec, emax in E |- *. rewrite E.
    exists m, e. repeat split; try lia.
    replace (- e) with (Z.pos k) by lia. lia.
Qed.

(** The quotient of two normal floats, away from the ends of the range:
    a normal float within one part in 2^52 of the exact quotient. *)
Lemma div_normal m1 e1 m2 e2 :
  2 ^ 52 <= Z.pos m1 < 2 ^ 53 -> 2 ^ 52 <= Z.pos m2 < 2 ^ 53 ->
  -1000 <= e1 - e2 <= 900 ->
  exists m e k,
    SFdiv prec emax (S754_finite false m1 e1) (S754_finite false m2 e2)
    = S754_finite false m e
    /\ 2 ^ 52 <= Z.pos m < 2 ^ 53
    /\ e = e1 - e2 - 53 + k /\ 0 <= k <= 2
    /\ (2 ^ 52 - 1) * (Z.pos m1 * 2 ^ 53)
       <= 2 ^ 52 * (Z.pos m * 2 ^ k * Z.pos m2)
       <= (2 ^ 52 + 1) * (Z.pos m1 * 2 ^ 53).
Proof.
  intros C1 C2 He.
  unfold SFdiv, SFdiv_core_binary.
  rewrite (digits53 m1 C1), (digits53 m2 C2).
  unfold fexp, emin, prec, emax.
  replace (Z.min (Z.max (53 + e1 - (53 + e2) - 53) (3 - 1024 - 53)) (e1 - e2))
    with (e1 - e2 - 53) by lia.
  replace (e1 - e2 - (e1 - e2 - 53)) with 53 by lia.
  cbv iota. rewrite Z.shiftl_mul_pow2 by lia.
  pose proof (Z_div_mod (Z.pos m1 * 2 ^ 53) (Z.pos m2) eq_refl) as DM.
  destruct (Z.div_eucl (Z.pos m1 * 2 ^ 53) (Z.pos m2)) as [q r].
  destruct DM as [DM Hr].
  assert (Hq : 2 ^ 52 <= q < 2 ^ 54) by nia.
  assert (Dq : 53 <= Zdigits2 q <= 54).
  { destruct q as [|q|q]; try lia. simpl Zdigits2.
    destruct (digits2_bounds q) as [Dlo Dhi].
    set (d := Z.pos (digits2_pos q)) in *.
    split.
    - destruct (Z.le_gt_cases 53 d) as [|Hlt]; [assumption|].
      assert (2 ^ d <= 2 ^ 52) by (apply Z.pow_le_mono_r; lia). lia.
    - destruct (Z.le_gt_cases d 54) as [|Hgt]; [assumption|].
      assert (2 ^ 54 <= 2 ^ (d - 1)) by (apply Z.pow_le_mono_r; lia). lia. }
  destruct (round_aux_normal q (e1 - e2 - 53) (new_location (Z.pos m2) r))
    as (m & e & k & E & Cm & Ee & Hk & B & R & _); try lia.
  change (xorb false false) with false.
  unfold prec, emax in E |- *. rewrite E.
  exists m, e, k. split; [reflexivity|]. split; [exact Cm|].
  split; [exact Ee|]. split; [lia|].
  set (t := 2 ^ (Zdigits2 q - 53)) in *.
  assert (0 < t) by (apply Z.pow_pos_nonneg; lia).
  set (v := Z.pos m * 2 ^ k) in *.
  split; nia.
Qed.

(** The product of two normal floats, away from the ends of the range. *)
Lemma mul_normal m1 e1 m2 e2 :
  2 ^ 52 <= Z.pos m1 < 2 ^ 53 -> 2 ^ 52 <= Z.pos m2 < 2 ^ 53 ->
  -1000 <= e1 + e2 <= 800 ->
  exists m e k,
    SFmul prec emax (S754_finite false m1 e1) (S754_finite false m2 e2)
    = S754_finite false m e
    /\ 2 ^ 52 <= Z.pos m < 2 ^ 53
    /\ e = e1 + e2 + k /\ 52 <= k <= 54
    /\ (2 ^ 52 - 1) * (Z.pos m1 * Z.pos m2)
       <= 2 ^ 52 * (Z.pos m * 2 ^ k)
       <= (2 ^ 52 + 1) * (Z.pos m1 * Z.pos m2).
Proof.
  intros C1 C2 He.
  unfold SFmul. change (xorb false false) with false.
  assert (Hq : 2 ^ 104 <= Z.pos (m1 * m2) < 2 ^ 106).
  { rewrite Pos2Z.inj_mul.
    change (2 ^ 104) with (2 ^ 52 * 2 ^ 52).
    change (2 ^ 106) with (2 ^ 53 * 2 ^ 53). nia. }
  assert (Dq : 105 <= Zdigits2 (Z.pos (m1 * m2)) <= 106).
  { simpl Zdigits2.
    destruct (digits2_bounds (m1 * m2)) as [Dlo Dhi].
    set (d := Z.pos (digits2_pos (m1 * m2))) in *.
    split.
    - destruct (Z.le_gt_cases 105 d) as [|Hlt]; [assumption|].
      assert (2 ^ d <= 2 ^ 104) by (apply Z.pow_le_mono_r; lia). lia.
    - destruct (Z.le_gt_cases d 106) as [|Hgt]; [assumption|].
      assert (2 ^ 106 <= 2 ^ (d - 1)) by (apply Z.pow_le_mono_r; lia). lia. }
  destruct (round_aux_normal (Z.pos (m1 * m2)) (e1 + e2) loc_Exact)
    as (m & e & k & E & Cm & Ee & Hk & B & R & _); try lia.
  unfold prec, emax in E |- *. rewrite E.
  exists m, e, k. split; [reflexivity|]. split; [exact Cm|].
  split; [exact Ee|]. split; [lia|].
  rewrite <- Pos2Z.inj_mul.
  set (t := 2 ^ (Zdigits2 (Z.pos (m1 * m2)) - 53)) in *.
  set (v := Z.pos m * 2 ^ k) in *.
  split; nia.
Qed.

(** ** The same facts on the rationals the floats stand for *)

Open Scope Q_scope.

Lemma pow2_pos e : 0 < 2 ^ e.
Proof. apply Qpower_0_lt. reflexivity. Qed.

Lemma pow2_add a b : 2 ^ (a + b) == 2 ^ a * 2 ^ b.
Proof. apply Qpower_plus. discriminate. Qed.

Lemma pow2_inject n : (0 <= n)%Z -> 2 ^ n == inject_Z (2 ^ n).
Proof. intros H. rewrite Zpower_Qpower by assumption. reflexivity. Qed.

Lemma dyadic_shift a e c :
  (c <= e)%Z -> inject_Z a * 2 ^ e == inject_Z (a * 2 ^ (e - c)) * 2 ^ c.
Proof.
  intros H.
  replace e with ((e - c) + c)%Z at 1 by lia.
  rewrite pow2_add, pow2_inject by lia.
  rewrite inject_Z_mult. ring.
Qed.

Lemma dyadic_le a b ea eb c :
  (c <= ea)%Z -> (c <= eb)%Z ->
  (a * 2 ^ (ea - c) <= b * 2 ^ (eb - c))%Z ->
  inject_Z a * 2 ^ ea <= inject_Z b * 2 ^ eb.
Proof.
  intros Ha Hb H.
  rewrite (dyadic_shift a ea c Ha), (dyadic_shift b eb c Hb).
  apply Qmult_le_compat_r.
  - rewrite <- Zle_Qle. exact H.
  - apply Qlt_le_weak, pow2_pos.
Qed.

Lemma dyadic_lt a b ea eb c :
  (c <= ea)%Z -> (c <= eb)%Z ->
  (a * 2 ^ (ea - c) < b * 2 ^ (eb - c))%Z ->
  inject_Z a * 2 ^ ea < inject_Z b * 2 ^ eb.
Proof.
  intros Ha Hb H.
  rewrite (dyadic_shift a ea c Ha), (dyadic_shift b eb c Hb).
  apply Qmult_lt_compat_r.
  - apply pow2_pos.
  - rewrite <- Zlt_Qlt. exact H.
Qed.

Lemma to_Q_finite m e :
  to_Q (S754_finite false m e) = inject_Z (Z.pos m) * 2 ^ e.
Proof. reflexivity. Qed.

Lemma normal_inv x :
  normal x ->
  exists m e, x = S754_finite false m e
              /\ (2 ^ 52 <= Z.pos m < 2 ^ 53)%Z /\ expo x = e.
Proof.
  destruct x as [| | |[|] m e]; simpl; try contradiction.
  intros H. exists m, e. auto.
Qed.

Lemma normal_pos x : normal x -> 0 < to_Q x.
Proof.
  intros N. destruct (normal_inv x N) as (m & e & -> & C & _).
  rewrite to_Q_finite.
  apply Qmult_lt_0_compat; [|apply pow2_pos].
  change 0 with (inject_Z 0). rewrite <- Zlt_Qlt. lia.
Qed.

Lemma one_plus_u a e :
  (1 + u) * (inject_Z a * 2 ^ e)
  == inject_Z ((2 ^ 52 + 1) * a) * 2 ^ (e - 52).
Proof.
  unfold Z.sub. rewrite pow2_add, inject_Z_mult.
  change (2 ^ (- (52))) with (1 # 4503599627370496).
  change (inject_Z (2 ^ 52 + 1)) with (4503599627370497 # 1).
  unfold u. ring.
Qed.

Lemma one_minus_u a e :
  (1 - u) * (inject_Z a * 2 ^ e)
  == inject_Z ((2 ^ 52 - 1) * a) * 2 ^ (e - 52).
Proof.
  unfold Z.sub at 2. rewrite pow2_add, inject_Z_mult.
  change (2 ^ (- (52))) with (1 # 4503599627370496).
  change (inject_Z (2 ^ 52 - 1)) with (4503599627370495 # 1).
  unfold u. ring.
Qed.

Lemma of_int_Q w :
  (0 < w < 2 ^ 53)%Z ->
  exists x, of_int w = Ok x /\ normal x
            /\ (-52 <= expo x <= 0)%Z /\ to_Q x == inject_Z w.
Proof.
  intros Hw.
  destruct (of_int_exact w Hw) as (m & e & E & C & He & V).
  exists (S754_finite false m e). split; [exact E|].
  split; [exact C|]. split; [exact He|].
  rewrite to_Q_finite, V.
  replace (- e)%Z with (0 - e)%Z by lia.
  rewrite <- (dyadic_shift w 0 e) by lia.
  change (2 ^ 0) with 1. ring.
Qed.

Lemma div_Q x y :
  normal x -> normal y -> (-1000 <= expo x - expo y <= 900)%Z ->
  normal (SFdiv prec emax x y)
  /\ (expo x - expo y - 53 <= expo (SFdiv prec emax x y)
      <= expo x - expo y - 51)%Z
  /\ (1 - u) * to_Q x <= to_Q (SFdiv prec emax x y) * to_Q y
     <= (1 + u) * to_Q x.
Proof.
  intros Nx Ny He.
  destruct (normal_inv x Nx) as (m1 & e1 & -> & C1 & E1).
  destruct (normal_inv y Ny) as (m2 & e2 & -> & C2 & E2).
  cbn [expo] in He |- *.
  destruct (div_normal m1 e1 m2 e2 C1 C2 He)
    as (m & e & k & E & Cm & Ee & Hk & Lo & Hi).
  rewrite E. cbn [expo]. split; [exact Cm|]. split; [lia|].
  rewrite !to_Q_finite, one_plus_u, one_minus_u.
  assert (P : inject_Z (Z.pos m) * 2 ^ e * (inject_Z (Z.pos m2) * 2 ^ e2)
              == inject_Z (Z.pos m * Z.pos m2) * 2 ^ (e + e2)).
  { rewrite pow2_add, inject_Z_mult. ring. }
  rewrite P.
  assert (Pk : (0 < 2 ^ k)%Z) by (apply Z.pow_pos_nonneg; lia).
  split.
  - apply (dyadic_le _ _ _ _ (e1 - 53)%Z); try lia.
    replace (e1 - 52 - (e1 - 53))%Z with 1%Z by lia.
    replace (e + e2 - (e1 - 53))%Z with k by lia.
    change (2 ^ 53)%Z with (2 ^ 52 * 2)%Z in Lo. nia.
  - apply (dyadic_le _ _ _ _ (e1 - 53)%Z); try lia.
    replace (e1 - 52 - (e1 - 53))%Z with 1%Z by lia.
    replace (e + e2 - (e1 - 53))%Z with k by lia.
    change (2 ^ 53)%Z with (2 ^ 52 * 2)%Z in Hi. nia.
Qed.

Lemma mul_Q x y :
  normal x -> normal y -> (-1000 <= expo x + expo y <= 800)%Z ->
  normal (SFmul prec emax x y)
  /\ (1 - u) * (to_Q x * to_Q y) <= to_Q (SFmul prec emax x y)
     <= (1 + u) * (to_Q x * to_Q y).
Proof.
  intros Nx Ny He.
  destruct (normal_inv x Nx) as (m1 & e1 & -> & C1 & E1).
  destruct (normal_inv y Ny) as (m2 & e2 & -> & C2 & E2).
  cbn [expo] in He.
  destruct (mul_normal m1 e1 m2 e2 C1 C2 He)
    as (m & e & k & E & Cm & Ee & Hk & Lo & Hi).
  rewrite E. split; [exact Cm|].
  rewrite !to_Q_finite.
  assert (P : inject_Z (Z.pos m1) * 2 ^ e1 * (inject_Z (Z.pos m2) * 2 ^ e2)
              == inject_Z (Z.pos m1 * Z.pos m2) * 2 ^ (e1 + e2)).
  { rewrite pow2_add, inject_Z_mult. ring. }
  rewrite P, one_plus_u, one_minus_u.
  assert (Pk : (0 < 2 ^ k)%Z) by (apply Z.pow_pos_nonneg; lia).
  assert (Ek : (2 ^ k = 2 ^ (k - 52) * 2 ^ 52)%Z)
    by (rewrite <- Z.pow_add_r by lia; f_equal; lia).
  assert (Pk' : (0 < 2 ^ (k - 52))%Z) by (apply Z.pow_pos_nonneg; lia).
  split.
  - apply (dyadic_le _ _ _ _ (e1 + e2 - 52)%Z); try lia.
    replace (e1 + e2 - 52 - (e1 + e2 - 52))%Z with 0%Z by lia.
    replace (e - (e1 + e2 - 52))%Z with (k + 52)%Z by lia.
    rewrite Z.pow_add_r by lia. nia.
  - apply (dyadic_le _ _ _ _ (e1 + e2 - 52)%Z); try lia.
    replace (e1 + e2 - 52 - (e1 + e2 - 52))%Z with 0%Z by lia.
    replace (e - (e1 + e2 - 52))%Z with (k + 52)%Z by lia.
    rewrite Z.pow_add_r by lia. nia.
Qed.


Lemma ltb_Q x y :
  normal x -> normal y ->
  if SFltb x y then to_Q x < to_Q y else to_Q y <= to_Q x.
Proof.
  intros Nx Ny.
  destruct (normal_inv x Nx) as (m1 & e1 & -> & C1 & _).
  destruct (normal_inv y Ny) as (m2 & e2 & -> & C2 & _).
  unfold SFltb, SFcompare. rewrite !to_Q_finite.
  destruct (Z.compare_spec e1 e2) as [Ee | Ee | Ee].
  - subst e2. change (Pos.compare_cont Eq m1 m2) with (Pos.compare m1 m2).
    destruct (Pos.compare_spec m1 m2) as [Em | Em | Em].
    + subst m2. apply Qle_refl.
    + apply (dyadic_lt _ _ _ _ e1); rewrite ?Z.sub_diag; lia.
    + apply (dyadic_le _ _ _ _ e1); rewrite ?Z.sub_diag; lia.
  - assert (2 ^ 1 <= 2 ^ (e2 - e1))%Z by (apply Z.pow_le_mono_r; lia).
    apply (dyadic_lt _ _ _ _ e1); try lia.
    rewrite Z.sub_diag. change (2 ^ 1)%Z with 2%Z in H. nia.
  - assert (2 ^ 1 <= 2 ^ (e1 - e2))%Z by (apply Z.pow_le_mono_r; lia).
    apply (dyadic_le _ _ _ _ e2); try lia.
    rewrite Z.sub_diag. change (2 ^ 1)%Z with 2%Z in H. nia.
Qed.

Lemma min2_Q a b :
  normal a -> normal b ->
  normal (min2 a b)
  /\ (min2 a b = a \/ min2 a b = b)
  /\ to_Q (min2 a b) == Qmin (to_Q a) (to_Q b).
Proof.
  intros Na Nb. unfold min2.
  pose proof (ltb_Q b a Nb Na) as H.
  destruct (SFltb b a).
  - split; [exact Nb|]. split; [now right|].
    symmetry. apply Q.min_r. apply Qlt_le_weak. exact H.
  - split; [exact Na|]. split; [now left|].
    symmetry. apply Q.min_l. exact H.
Qed.

(** [int(x)] is the floor of a positive float. *)
Lemma to_int_Q x : normal x -> to_int x = Ok (Qfloor (to_Q x)).
Proof.
  intros N. destruct (normal_inv x N) as (m & e & -> & C & _).
  rewrite to_Q_finite. unfold to_int, cond_Zopp. f_equal.
  destruct (Z.le_gt_cases 0 e) as [He | He].
  - rewrite Z.shiftl_mul_pow2 by assumption.
    rewrite (dyadic_shift (Z.pos m) e 0 He), Z.sub_0_r.
    change (2 ^ 0) with 1. rewrite Qmult_1_r. symmetry. apply Qfloor_Z.
  - rewrite Z.shiftl_div_pow2 by lia.
    rewrite Zdiv_Qdiv. apply Qfloor_comp.
    unfold Qdiv. apply Qmult_comp; [reflexivity|].
    rewrite <- pow2_inject by lia.
    rewrite <- Qpower_opp. rewrite Z.opp_involutive. reflexivity.
Qed.

End Binary64.

(** * The scale factor and the scaled size *)

Module Fit.

Import PyFloat Binary64.
Open Scope Q_scope.

Lemma of_int_target : of_int TARGET_SIZE = Ok target_float.
Proof. reflexivity. Qed.

Lemma target_normal : normal target_float.
Proof. simpl. lia. Qed.

Lemma target_Q : to_Q target_float == 3000.
Proof. reflexivity. Qed.

Lemma true_div_target n :
  exact_dim n ->
  exists a, true_div TARGET_SIZE n = Ok a
            /\ normal a /\ (-94 <= expo a <= 11)%Z
            /\ (1 - u) * 3000 <= to_Q a * inject_Z n <= (1 + u) * 3000.
Proof.
  intros Hn. destruct (of_int_Q n Hn) as (x & Ex & Nx & Xe & Xq).
  unfold true_div.
  replace (n =? 0)%Z with false
    by (symmetry; apply Z.eqb_neq; unfold exact_dim in Hn; lia).
  rewrite of_int_target, Ex. cbn [bind].
  destruct (div_Q target_float x target_normal Nx) as (Na & Ea & Ba).
  { cbn [expo target_float]. lia. }
  eexists. split; [reflexivity|]. split; [exact Na|].
  cbn [expo target_float] in Ea. split; [lia|].
  rewrite target_Q, Xq in Ba. exact Ba.
Qed.

Lemma int_mul_normal n s :
  exact_dim n -> normal s -> (-94 <= expo s <= 11)%Z ->
  exists p, int_mul n s = Ok p /\ normal p
            /\ (1 - u) * (inject_Z n * to_Q s) <= to_Q p
               <= (1 + u) * (inject_Z n * to_Q s).
Proof.
  intros Hn Ns Es. destruct (of_int_Q n Hn) as (x & Ex & Nx & Xe & Xq).
  unfold int_mul. rewrite Ex. cbn [bind].
  destruct (mul_Q x s Nx Ns) as (Np & Bp); [lia|].
  eexists. split; [reflexivity|]. split; [exact Np|].
  rewrite Xq in Bp. exact Bp.
Qed.

(** Lines 44-48 never raise on exact sizes, and what they compute. *)
Lemma scaled_size_spec w h :
  exact_dim w -> exact_dim h ->
  exists a b pw ph,
    true_div TARGET_SIZE w = Ok a /\ true_div TARGET_SIZE h = Ok b
    /\ compute_scale w h = Ok (min2 a b)
    /\ int_mul w (min2 a b) = Ok pw /\ int_mul h (min2 a b) = Ok ph
    /\ scaled_size w h = Ok (Qfloor (to_Q pw), Qfloor (to_Q ph))
    /\ normal a /\ normal b /\ normal pw /\ normal ph
    /\ (1 - u) * 3000 <= to_Q a * inject_Z w <= (1 + u) * 3000
    /\ (1 - u) * 3000 <= to_Q b * inject_Z h <= (1 + u) * 3000
    /\ (1 - u) * (inject_Z w * to_Q (min2 a b)) <= to_Q pw
       <= (1 + u) * (inject_Z w * to_Q (min2 a b))
    /\ (1 - u) * (inject_Z h * to_Q (min2 a b)) <= to_Q ph
       <= (1 + u) * (inject_Z h * to_Q (min2 a b)).
Proof.
  intros Hw Hh.
  destruct (true_div_target w Hw) as (a & Ea & Na & Xa & Ba).
  destruct (true_div_target h Hh) as (b & Eb & Nb & Xb & Bb).
  destruct (min2_Q a b Na Nb) as (Ns & Cs & _).
  assert (Xs : (-94 <= expo (min2 a b) <= 11)%Z)
    by (destruct Cs as [-> | ->]; assumption).
  destruct (int_mul_normal w _ Hw Ns Xs) as (pw & Epw & Npw & Bpw).
  destruct (int_mul_normal h _ Hh Ns Xs) as (ph & Eph & Nph & Bph).
  exists a, b, pw, ph.
  assert (Esc : compute_scale w h = Ok (min2 a b)).
  { unfold compute_scale. rewrite Ea, Eb. reflexivity. }
  repeat (split; [assumption|]).
  split; [|tauto].
  unfold scaled_size. rewrite Esc. cbn [bind].
  rewrite Epw. cbn [bind]. rewrite (to_int_Q pw Npw). cbn [bind].
  rewrite Eph. cbn [bind]. rewrite (to_int_Q ph Nph). reflexivity.
Qed.


Lemma floor_le_target q :
  0 < q -> q <= (1 + u) * ((1 + u) * 3000) -> (0 <= Qfloor q <= 3000)%Z.
Proof.
  intros H0 H1. split.
  - change 0%Z with (Qfloor 0). apply Qfloor_resp_le, Qlt_le_weak, H0.
  - change 3000%Z with (Qfloor ((1 + u) * ((1 + u) * 3000))).
    apply Qfloor_resp_le, H1.
Qed.

Lemma scaled_le w s a p :
  exact_dim w -> 0 < to_Q s -> to_Q s <= to_Q a ->
  to_Q a * inject_Z w <= (1 + u) * 3000 ->
  to_Q p <= (1 + u) * (inject_Z w * to_Q s) ->
  to_Q p <= (1 + u) * ((1 + u) * 3000).
Proof.
  intros Hw Hs Hsa Ha Hp.
  assert (W : 0 < inject_Z w).
  { change 0 with (inject_Z 0). rewrite <- Zlt_Qlt. unfold exact_dim in Hw. lia. }
  assert (M : inject_Z w * to_Q s <= to_Q a * inject_Z w).
  { rewrite (Qmult_comm (to_Q a)). apply Qmult_le_l; assumption. }
  assert (U : 0 < 1 + u) by reflexivity.
  apply Qle_trans with (1 := Hp).
  apply Qmult_le_l; [exact U|].
  apply Qle_trans with (1 := M). exact Ha.
Qed.

(** Both scaled dimensions lie between 0 and the target. *)
Lemma scaled_size_bounds w h :
  exact_dim w -> exact_dim h ->
  exists nw nh,
    scaled_size w h = Ok (nw, nh)
    /\ (0 <= nw <= TARGET_SIZE)%Z /\ (0 <= nh <= TARGET_SIZE)%Z.
Proof.
  intros Hw Hh.
  destruct (scaled_size_spec w h Hw Hh)
    as (a & b & pw & ph & _ & _ & _ & _ & _ & E & Na & Nb & Npw & Nph
        & [_ Ba] & [_ Bb] & [_ Bw] & [_ Bh]).
  destruct (min2_Q a b Na Nb) as (Ns & _ & Es).
  assert (Sa : to_Q (min2 a b) <= to_Q a) by (rewrite Es; apply Q.le_min_l).
  assert (Sb : to_Q (min2 a b) <= to_Q b) by (rewrite Es; apply Q.le_min_r).
  exists (Qfloor (to_Q pw)), (Qfloor (to_Q ph)).
  split; [exact E|]. unfold TARGET_SIZE. split.
  - apply floor_le_target; [apply normal_pos, Npw|].
    apply (scaled_le w (min2 a b) a); auto using normal_pos.
  - apply floor_le_target; [apply normal_pos, Nph|].
    apply (scaled_le h (min2 a b) b); auto using normal_pos.
Qed.


Lemma floor_near_target q :
  (1 - u) * ((1 - u) * 3000) <= q -> (2999 <= Qfloor q)%Z.
Proof.
  intros H.
  change 2999%Z with (Qfloor ((1 - u) * ((1 - u) * 3000))).
  apply Qfloor_resp_le, H.
Qed.

Lemma scaled_ge w h s p :
  exact_dim w -> exact_dim h -> (h <= w)%Z -> 0 < to_Q s ->
  (1 - u) * 3000 <= to_Q s * inject_Z h ->
  (1 - u) * (inject_Z w * to_Q s) <= to_Q p ->
  (1 - u) * ((1 - u) * 3000) <= to_Q p.
Proof.
  intros Hw Hh Hle Hs Hb Hp.
  assert (W : inject_Z h <= inject_Z w) by (rewrite <- Zle_Qle; exact Hle).
  assert (M : to_Q s * inject_Z h <= inject_Z w * to_Q s).
  { rewrite (Qmult_comm (inject_Z w)).
    apply Qmult_le_l; assumption. }
  assert (U : 0 < 1 - u) by reflexivity.
  apply Qle_trans with (2 := Hp).
  apply Qmult_le_l; [exact U|].
  apply Qle_trans with (2 := M). exact Hb.
Qed.

(** The longer side ends at the target or one pixel short of it. *)
Lemma longer_side_near_target w h :
  exact_dim w -> exact_dim h ->
  exists nw nh,
    scaled_size w h = Ok (nw, nh)
    /\ ((h <= w)%Z -> (2999 <= nw <= 3000)%Z)
    /\ ((w <= h)%Z -> (2999 <= nh <= 3000)%Z).
Proof.
  intros Hw Hh.
  destruct (scaled_size_bounds w h Hw Hh) as (nw & nh & E & Bw & Bh).
  destruct (scaled_size_spec w h Hw Hh)
    as (a & b & pw & ph & _ & _ & _ & _ & _ & E' & Na & Nb & Npw & Nph
        & [Ba _] & [Bb _] & [Bw' _] & [Bh' _]).
  rewrite E in E'. injection E' as -> ->.
  exists (Qfloor (to_Q pw)), (Qfloor (to_Q ph)).
  split; [exact E|]. unfold TARGET_SIZE in *.
  destruct (min2_Q a b Na Nb) as (Ns & Cs & _).
  pose proof (normal_pos _ Ns) as Ps.
  split; intros Hle; (split; [|lia]); apply floor_near_target.
  - destruct Cs as [Es | Es]; rewrite Es in *.
    + apply (scaled_ge w w a pw); auto; lia.
    + apply (scaled_ge w h b pw); auto.
  - destruct Cs as [Es | Es]; rewrite Es in *.
    + apply (scaled_ge h w a ph); auto.
    + apply (scaled_ge h h b ph); auto; lia.
Qed.

(** The binary64 product can fall just below an integer that exact
    arithmetic reaches: 21 * 3000 / 35 is 1800. *)
Lemma binary64_below_exact_floor :
  scaled_size 21 35 = Ok (1799, 3000)%Z /\ (21 * 3000 / 35 = 1800)%Z.
Proof. split; reflexivity. Qed.

(** A side more than 3000 times shorter than the other scales to 0. *)
Lemma extreme_ratio_scales_to_zero : scaled_size 1 4000 = Ok (0, 3000)%Z.
Proof. reflexivity. Qed.

End Fit.

(** * The file system and the listings *)

Module Files.

Lemma assoc_set_same {A} k (v : A) l : assoc k (assoc_set k v l) = Some v.
Proof.
  induction l as [|[k' v'] tl IH]; simpl.
  - rewrite String.eqb_refl. reflexivity.
  - destruct (String.eqb k k') eqn:E; simpl.
    + rewrite String.eqb_refl. reflexivity.
    + rewrite E. exact IH.
Qed.

Lemma write_cons name r rest es (im : option Image) :
  write (Dir es) (name :: r :: rest) im
  = match assoc name es with
    | Some c =>
        c' <- write c (r :: rest) im ;;
        Ok (Dir (assoc_set name c' es))
    | None => Raise FileNotFoundError
    end.
Proof. reflexivity. Qed.

(** A successful write leaves the content at the path. *)
Lemma lookup_write p :
  forall n im n',
    write n p im = Ok n' -> lookup n' p = Some (File im).
Proof.
  induction p as [|name rest IH]; intros n im n' H.
  - destruct n; discriminate.
  - destruct n as [c|es]; [destruct rest; discriminate|].
    destruct rest as [|r rest'].
    + simpl in H.
      destruct (assoc name es) as [[c|es']|]; try discriminate;
        injection H as <-; simpl; rewrite assoc_set_same; reflexivity.
    + rewrite write_cons in H.
      destruct (assoc name es) as [c|]; try discriminate.
      destruct (write c (r :: rest') im) as [c'|] eqn:W;
        cbn [bind] in H; try discriminate.
      injection H as <-. cbn [lookup]. rewrite assoc_set_same.
      exact (IH _ _ _ W).
Qed.

Lemma fnmatch_literal pat :
  literal pat = true -> forall s, fnmatch pat s = String.eqb s pat.
Proof.
  induction pat as [|c pat IH]; intros L s.
  - destruct s; reflexivity.
  - cbn [literal] in L.
    apply andb_true_iff in L as [L L3].
    apply andb_true_iff in L as [L1 L2].
    apply negb_true_iff in L1, L2.
    cbn [fnmatch]. rewrite L1, L2.
    destruct s as [|c' s]; [reflexivity|].
    cbn [String.eqb]. rewrite (IH L3), (Ascii.eqb_sym c c'). reflexivity.
Qed.

Lemma fnmatch_star pat :
  literal pat = true ->
  forall s, fnmatch (String "*" pat) s = ends_with s pat.
Proof.
  intros L. cbn [fnmatch]. change (Ascii.eqb "*" "*") with true. cbv iota.
  induction s as [|c s IH].
  - rewrite (fnmatch_literal pat L). reflexivity.
  - cbn [ends_with]. rewrite <- IH, (fnmatch_literal pat L). reflexivity.
Qed.

Lemma lower_fixed_ends s ext :
  lower ext = ext -> ends_with s ext = true ->
  ends_with (lower s) ext = true.
Proof.
  intros Le. induction s as [|c s IH]; intros H.
  - exact H.
  - cbn [ends_with lower] in H |- *.
    apply orb_true_iff in H as [H | H].
    + apply String.eqb_eq in H. rewrite <- H in Le. cbn [lower] in Le.
      rewrite Le, H, String.eqb_refl. reflexivity.
    + rewrite (IH H). apply orb_true_r.
Qed.

Lemma supported_literal ext :
  In ext SUPPORTED_FORMATS -> literal ext = true /\ lower ext = ext.
Proof.
  intros Hin. simpl in Hin.
  repeat (destruct Hin as [<- | Hin]; [split; reflexivity|]).
  contradiction.
Qed.

(** A name a glob of the program matches ends in a supported extension. *)
Lemma supported_glob_ext ext name :
  In ext SUPPORTED_FORMATS ->
  fnmatch ("*" ++ ext) name = true -> has_supported_ext name = true.
Proof.
  intros Hin M. unfold has_supported_ext.
  apply existsb_exists. exists ext. split; [exact Hin|].
  destruct (supported_literal ext Hin) as [L Le].
  change ("*" ++ ext) with (String "*" ext) in M.
  rewrite (fnmatch_star ext L) in M.
  apply lower_fixed_ends; assumption.
Qed.

(** Without recursion the program finds the direct entries, files or
    directories, whose name ends in a supported extension written in
    lower case. *)
Lemma find_images_flat root folder es :
  lookup root folder = Some (Dir es) ->
  forall p,
    In p (find_images root folder false)
    <-> exists name c,
        In (name, c) es /\ p = (folder ++ [name])%list
        /\ existsb (ends_with name) SUPPORTED_FORMATS = true.
Proof.
  intros L p. unfold find_images. rewrite in_flat_map.
  unfold glob. rewrite L. unfold matching. split.
  - intros (ext & Hext & Hp).
    apply in_map_iff in Hp as ([name c] & <- & Hf).
    apply filter_In in Hf as [Hin M]. cbn [fst] in *.
    exists name, c. split; [exact Hin|]. split; [reflexivity|].
    apply existsb_exists. exists ext. split; [exact Hext|].
    destruct (supported_literal ext Hext) as [Lit _].
    change ("*" ++ ext) with (String "*" ext) in M.
    rewrite (fnmatch_star ext Lit) in M. exact M.
  - intros (name & c & Hin & -> & E).
    apply existsb_exists in E as (ext & Hext & M).
    exists ext. split; [exact Hext|].
    apply in_map_iff. exists (name, c). split; [reflexivity|].
    apply filter_In. split; [exact Hin|]. cbn [fst].
    destruct (supported_literal ext Hext) as [Lit _].
    change ("*" ++ ext) with (String "*" ext).
    rewrite (fnmatch_star ext Lit). exact M.
Qed.

Lemma matching_nil pat pre es :
  (forall name, In name (map fst es) -> fnmatch pat name = false) ->
  matching pat pre es = [].
Proof.
  intros H. unfold matching.
  induction es as [|[name c] tl IH]; [reflexivity|].
  cbn [filter fst]. rewrite (H name) by (left; reflexivity).
  apply IH. intros n Hn. apply H. right. exact Hn.
Qed.

(** Induction on a tree, with the hypothesis for every entry. *)
Lemma node_induction (P : node -> Prop) :
  (forall c, P (File c)) ->
  (forall es, Forall (fun e => P (snd e)) es -> P (Dir es)) ->
  forall n, P n.
Proof.
  intros Hf Hd.
  fix IH 1. intros [c|es].
  - apply Hf.
  - apply Hd. induction es as [|[name c] tl IHl].
    + constructor.
    + constructor; [apply IH | exact IHl].
Qed.

Lemma walk_nil pat n :
  forall pre,
    (forall name, In name (names_below n) -> fnmatch pat name = false) ->
    walk pat pre n = [].
Proof.
  induction n as [c|es IH] using node_induction; intros pre H.
  - reflexivity.
  - cbn [walk names_below] in *.
    rewrite matching_nil
      by (intros name Hn; apply H, in_or_app; left; exact Hn).
    cbn [app].
    assert (H' : forall name,
               In name ((fix sub (l : list (string * node)) : list string :=
                           match l with
                           | [] => []
                           | (_, c) :: tl => (names_below c ++ sub tl)%list
                           end) es) -> fnmatch pat name = false)
      by (intros name Hn; apply H, in_or_app; right; exact Hn).
    clear H. induction es as [|[name c] tl IHl]; [reflexivity|].
    inversion IH as [|? ? Hc Htl]; subst.
    cbn [snd] in Hc.
    rewrite Hc by (intros nm Hn; apply H', in_or_app; left; exact Hn).
    cbn [app]. apply IHl; [exact Htl|].
    intros nm Hn. apply H', in_or_app. right. exact Hn.
Qed.

(** No listed name with a supported extension: nothing is found. *)
Lemma find_images_nil root folder recursive :
  (forall name, In name (listed_names root folder recursive) ->
                has_supported_ext name = false) ->
  find_images root folder recursive = [].
Proof.
  intros H. unfold find_images.
  assert (G : forall ext, In ext SUPPORTED_FORMATS ->
              (if recursive then rglob root folder ("*" ++ ext)
               else glob root folder ("*" ++ ext)) = []).
  { intros ext Hext. unfold rglob, glob, listed_names in *.
    assert (X : forall name,
               has_supported_ext name = false ->
               fnmatch ("*" ++ ext) name = false).
    { intros name Hs. destruct (fnmatch ("*" ++ ext) name) eqn:M; [|reflexivity].
      rewrite (supported_glob_ext ext name Hext M) in Hs. discriminate. }
    destruct (lookup root folder) as [[c|es]|]; destruct recursive; try reflexivity.
    - apply walk_nil. intros name Hn. apply X, H, Hn.
    - apply matching_nil. intros name Hn. apply X, H, Hn. }
  induction SUPPORTED_FORMATS as [|ext tl IH]; [reflexivity|].
  cbn [flat_map]. rewrite (G ext) by (left; reflexivity).
  apply IH. intros e He. apply G. right. exact He.
Qed.

End Files.

(** * The driver *)

Module Run.

Section WithPillow.

Variable raises : pil_call -> bool.

Ltac step H :=
  match type of H with
  | context [if raises ?c then _ else _] =>
      destruct (raises c); cbn [bind] in H; [discriminate|]
  end.

(** A run of the [try] block that reaches the save has opened the
    source, scaled its size to sides of at least 1, and built the
    composite. *)
Lemma resize_body_inv root p out im outp :
  resize_body raises root p out = Ok (im, outp) ->
  exists img nw nh,
    Image_open root p = Ok img
    /\ scaled_size (fst (size img)) (snd (size img)) = Ok (nw, nh)
    /\ 1 <= nw /\ 1 <= nh
    /\ outp = output_path_of p out
    /\ im = composite img nw nh.
Proof.
  unfold resize_body. intros H.
  destruct (Image_open root p) as [img|e]; cbn [bind] in H; [|discriminate].
  destruct (size img) as [w h] eqn:Es.
  destruct (scaled_size w h) as [[nw nh]|e] eqn:S; cbn [bind] in H;
    [|discriminate].
  exists img, nw, nh. rewrite Es. cbn [fst snd].
  split; [reflexivity|]. split; [exact S|].
  unfold Image_resize, Image_new, Image_convert, Image_paste,
    pil, composite, offsets in *.
  step H. cbn [bind fst snd] in H.
  destruct ((nw <? 1) || (nh <? 1))%bool eqn:G;
    cbn [bind negb size mode info data] in H; [discriminate|].
  apply orb_false_iff in G as [G1 G2].
  apply Z.ltb_ge in G1, G2.
  split; [exact G1|]. split; [exact G2|].
  destruct (wants_alpha img);
    cbn [bind negb size mode info data] in H;
    try (step H; cbn [bind negb size mode info data] in H);
    match type of H with
    | context [String.eqb (mode img) ?m] =>
        destruct (String.eqb (mode img) m)
    end;
    cbn [bind negb size mode info data] in H;
    repeat (step H; cbn [bind negb size mode info data] in H);
    injection H as <- <-; split; reflexivity.
Qed.

(** A save that succeeds has written the image; one that raises has left
    the file system as it was or the output emptied. *)
Lemma Image_save_inv root im p root' r :
  Image_save raises root im p = (root', r) ->
  (r = Ok tt /\ write root p (Some im) = Ok root')
  \/ (exists e, r = Raise e
                /\ (root' = root \/ write root p None = Ok root')).
Proof.
  unfold Image_save. intros H.
  destruct (raises (CallSave im p)).
  - right. exists PillowError.
    destruct (raises (SaveEmptiedOutput im p)).
    + destruct (write root p None) as [r0|e0] eqn:W;
        injection H as <- <-; split; auto.
    + injection H as <- <-. split; auto.
  - destruct (write root p (Some im)) as [r0|e0] eqn:W;
      injection H as <- <-.
    + left. split; reflexivity.
    + right. exists e0. split; auto.
Qed.

(** What a successful [resize_image] leaves behind. *)
Lemma resize_image_true p out w w' :
  resize_image raises p out w = (true, w') ->
  exists img nw nh,
    Image_open (fs w) p = Ok img
    /\ scaled_size (fst (size img)) (snd (size img)) = Ok (nw, nh)
    /\ lookup (fs w') (output_path_of p out)
       = Some (File (Some (composite img nw nh)))
    /\ stdout w'
       = (stdout w ++ [Resized p (output_path_of p out)])%list.
Proof.
  unfold resize_image. intros H.
  destruct (resize_body raises (fs w) p out) as [[im outp]|e] eqn:B;
    [|discriminate].
  destruct (Image_save raises (fs w) im outp) as [root' [[]|e]] eqn:Sv;
    [|discriminate].
  injection H as <-.
  destruct (resize_body_inv _ _ _ _ _ B)
    as (img & nw & nh & O & S & _ & _ & -> & ->).
  destruct (Image_save_inv _ _ _ _ _ Sv) as [[_ W] | (e & E & _)];
    [|discriminate].
  exists img, nw, nh. split; [exact O|]. split; [exact S|].
  split; [|reflexivity].
  cbn [print fs]. exact (Files.lookup_write _ _ _ _ W).
Qed.

(** The file system after a successful [resize_image]. *)
Lemma resize_image_true_fs p out w w' :
  resize_image raises p out w = (true, w') ->
  exists img nw nh,
    Image_open (fs w) p = Ok img
    /\ scaled_size (fst (size img)) (snd (size img)) = Ok (nw, nh)
    /\ 1 <= nw /\ 1 <= nh
    /\ resize_body raises (fs w) p out
       = Ok (composite img nw nh, output_path_of p out)
    /\ raises (CallSave (composite img nw nh) (output_path_of p out)) = false
    /\ write (fs w) (output_path_of p out) (Some (composite img nw nh))
       = Ok (fs w').
Proof.
  unfold resize_image. intros H.
  destruct (resize_body raises (fs w) p out) as [[im outp]|e] eqn:B;
    [|discriminate].
  destruct (Image_save raises (fs w) im outp) as [root' [[]|e]] eqn:Sv;
    [|discriminate].
  injection H as <-.
  destruct (resize_body_inv _ _ _ _ _ B)
    as (img & nw & nh & O & S & G1 & G2 & -> & ->).
  exists img, nw, nh.
  repeat (split; [assumption || reflexivity|]).
  unfold Image_save in Sv.
  destruct (raises (CallSave _ _)); [discriminate|].
  split; [reflexivity|].
  destruct (write (fs w) _ _) as [r0|e0]; [|discriminate].
  injection Sv as <-. reflexivity.
Qed.

(** A failed [resize_image] prints the error; the file system is as
    before, or the output path holds an emptied file. *)
Lemma resize_image_false p out w w' :
  resize_image raises p out w = (false, w') ->
  exists e root',
    w' = print (ErrorProcessing p e) {| fs := root'; stdout := stdout w |}
    /\ (root' = fs w
        \/ write (fs w) (output_path_of p out) None = Ok root').
Proof.
  unfold resize_image. intros H.
  destruct (resize_body raises (fs w) p out) as [[im outp]|e] eqn:B.
  - destruct (Image_save raises (fs w) im outp) as [root' [[]|e]] eqn:Sv;
      [discriminate|].
    injection H as <-. exists e, root'. split; [reflexivity|].
    destruct (resize_body_inv _ _ _ _ _ B)
      as (img & nw & nh & _ & _ & _ & _ & -> & _).
    destruct (Image_save_inv _ _ _ _ _ Sv) as [[E _] | (e' & _ & D)];
      [discriminate | exact D].
  - injection H as <-. exists e, (fs w). split; [|left; reflexivity].
    destruct w; reflexivity.
Qed.

(** A scaled size with a side below 1 stops [resize_image] at the
    resize: the error is printed, nothing is written. *)
Lemma resize_image_refused p out w img nw nh :
  Image_open (fs w) p = Ok img ->
  scaled_size (fst (size img)) (snd (size img)) = Ok (nw, nh) ->
  nw < 1 \/ nh < 1 ->
  exists e,
    resize_image raises p out w = (false, print (ErrorProcessing p e) w)
    /\ (raises (CallResize img (nw, nh)) = false -> e = ValueError).
Proof.
  intros O S G. unfold resize_image, resize_body. rewrite O. cbn [bind].
  destruct (size img) as [sw sh]. cbn [fst snd] in S. rewrite S. cbn [bind].
  unfold Image_resize, pil.
  destruct (raises (CallResize img (nw, nh))); cbn [bind fst snd].
  - exists PillowError. split; [reflexivity | discriminate].
  - assert (E : ((nw <? 1) || (nh <? 1))%bool = true).
    { apply orb_true_iff. destruct G as [G | G]; [left | right];
        apply Z.ltb_lt; exact G. }
    rewrite E. cbn [bind]. exists ValueError. split; reflexivity.
Qed.

(** Every pass of the counting loop adds one to exactly one counter. *)
Lemma count_loop_total step paths :
  forall s f w,
    fst (fst (count_loop step paths s f w))
    + snd (fst (count_loop step paths s f w))
    = s + f + Z.of_nat (List.length paths).
Proof.
  induction paths as [|p rest IH]; intros s f w.
  - cbn [count_loop fst snd List.length Z.of_nat]. lia.
  - cbn [count_loop]. destruct (step p w) as [[|] w1];
      rewrite IH; cbn [List.length]; lia.
Qed.

Lemma count_loop_mono step paths :
  forall s f w,
    s <= fst (fst (count_loop step paths s f w))
    /\ f <= snd (fst (count_loop step paths s f w)).
Proof.
  induction paths as [|p rest IH]; intros s f w.
  - cbn [count_loop fst snd]. lia.
  - cbn [count_loop]. destruct (step p w) as [[|] w1].
    + destruct (IH (s + 1) f w1). lia.
    + destruct (IH s (f + 1) w1). lia.
Qed.

End WithPillow.

Lemma wants_alpha_spec img :
  wants_alpha img = true
  <-> (mode img = "RGBA" \/ mode img = "LA"
       \/ (mode img = "P" /\ In "transparency" (info img))).
Proof.
  unfold wants_alpha. split.
  - intros H. apply orb_true_iff in H as [H | H].
    + cbn [existsb] in H. rewrite !orb_true_iff in H.
      destruct H as [H | [H | H]]; [left | right; left | discriminate];
        apply String.eqb_eq; exact H.
    + apply andb_true_iff in H as [H1 H2]. right; right.
      split; [apply String.eqb_eq; exact H1|].
      apply existsb_exists in H2 as (x & Hx & E).
      apply String.eqb_eq in E. subst x. exact Hx.
  - intros [H | [H | [H Hin]]]; rewrite H; try reflexivity.
    cbn [existsb String.eqb orb]. apply andb_true_iff.
    split; [reflexivity|].
    apply existsb_exists. exists "transparency".
    split; [exact Hin | reflexivity].
Qed.

Lemma Image_open_isfile root p img :
  Image_open root p = Ok img -> lookup root p = Some (File (Some img)).
Proof.
  unfold Image_open.
  destruct (lookup root p) as [[[i|]|es]|]; try discriminate.
  destruct ((fst (size i) <? 1) || (snd (size i) <? 1))%bool;
    [discriminate|].
  intros H. injection H as <-. reflexivity.
Qed.

(** Only a file with both sides at least 1 is opened. *)
Lemma Image_open_positive root p img :
  Image_open root p = Ok img -> 1 <= fst (size img) /\ 1 <= snd (size img).
Proof.
  unfold Image_open.
  destruct (lookup root p) as [[[i|]|es]|]; try discriminate.
  destruct ((fst (size i) <? 1) || (snd (size i) <? 1))%bool eqn:G;
    [discriminate|].
  intros H. injection H as <-.
  apply orb_false_iff in G as [G1 G2].
  apply Z.ltb_ge in G1, G2. split; assumption.
Qed.

End Run.

(** * The claims *)

Import PyFloat.

(** C1.  A source one pixel wide and 3001 high, or two wide and 6002
    high, has positive sides, yet its scaled width is 0: [Image.open]
    accepts the file, [Image.resize] refuses the size, and [resize_image]
    answers [False] with the error printed and the file system as it was,
    whatever else Pillow does and wherever the output was to go.  No canvas
    is produced: nothing is at the default output path afterwards, and the
    run ends with status 1. *)
Theorem thin_source_gets_no_canvas raises out :
  scaled_size 1 3001 = Ok (0, 3000)
  /\ scaled_size 2 6002 = Ok (0, 3000)
  /\ Image_open (fs strip_world) ["strip.png"] = Ok strip
  /\ Image_open (fs strip_world) ["ribbon.png"] = Ok ribbon
  /\ (exists e,
         resize_image raises ["strip.png"] out strip_world
         = (false, print (ErrorProcessing ["strip.png"] e) strip_world))
  /\ (exists e,
         resize_image raises ["ribbon.png"] out strip_world
         = (false, print (ErrorProcessing ["ribbon.png"] e) strip_world))
  /\ resize_image never ["strip.png"] None strip_world
     = (false, print (ErrorProcessing ["strip.png"] ValueError) strip_world)
  /\ lookup (fs (snd (resize_image raises ["strip.png"] None strip_world)))
            (default_output ["strip.png"]) = None
  /\ process_files never [["strip.png"]; ["ribbon.png"]] strip_world
     = ((0, 2),
        print (ErrorProcessing ["ribbon.png"] ValueError)
              (print (ErrorProcessing ["strip.png"] ValueError) strip_world))
  /\ fst (main never [["strip.png"]] false false strip_world) = 1.
Proof.
  assert (S1 : scaled_size 1 3001 = Ok (0, 3000)) by reflexivity.
  assert (S2 : scaled_size 2 6002 = Ok (0, 3000)) by reflexivity.
  assert (O1 : Image_open (fs strip_world) ["strip.png"] = Ok strip)
    by reflexivity.
  assert (O2 : Image_open (fs strip_world) ["ribbon.png"] = Ok ribbon)
    by reflexivity.
  repeat (split; [assumption|]).
  split.
  { destruct (Run.resize_image_refused raises ["strip.png"] out strip_world
                strip 0 3000 O1 S1) as (e & E & _); [left; lia|].
    exists e. exact E. }
  split.
  { destruct (Run.resize_image_refused raises ["ribbon.png"] out strip_world
                ribbon 0 3000 O2 S2) as (e & E & _); [left; lia|].
    exists e. exact E. }
  split; [reflexivity|].
  split.
  { destruct (Run.resize_image_refused raises ["strip.png"] None strip_world
                strip 0 3000 O1 S1) as (e & E & _); [left; lia|].
    rewrite E. reflexivity. }
  split; reflexivity.
Qed.



(** C3.  The longer side does not always reach the target: for a 91 x 91
    source the binary64 product 91 * (3000 / 91) lies just below 3000 and
    truncates to 2999, so the square is scaled to 2999 x 2999 and pasted at
    (0, 0); likewise the width of a 182 x 100 source and the height of a
    100 x 182 source stop at 2999. *)
Theorem longer_side_can_miss_target :
  scaled_size 91 91 = Ok (2999, 2999)
  /\ scaled_size 182 100 = Ok (2999, 1648)
  /\ scaled_size 100 182 = Ok (1648, 2999)
  /\ (exists w',
         resize_image never ["square.png"] None photos_world = (true, w')
         /\ lookup (fs w') ["square_3000x3000.png"]
            = Some (File (Some
                 {| size := (3000, 3000); mode := "RGB"; info := [];
                    data := Pasted (Solid [0; 0; 0])
                                   (Resampled (Stored 3) (2999, 2999))
                                   (2999, 2999) (0, 0) |}))).
Proof.
  split; [reflexivity|]. split; [reflexivity|]. split; [reflexivity|].
  eexists. split; reflexivity.
Qed.

(** C4.  The offsets are [(target - new) // 2] on each axis, they are not
    negative, and offset plus scaled dimension stays within the target; a
    run that succeeds has pasted the scaled image at these offsets. *)
Theorem placement_within_canvas w h :
  exact_dim w -> exact_dim h ->
  exists new_width new_height x_offset y_offset,
    scaled_size w h = Ok (new_width, new_height)
    /\ offsets new_width new_height = (x_offset, y_offset)
    /\ x_offset = (TARGET_SIZE - new_width) / 2
    /\ y_offset = (TARGET_SIZE - new_height) / 2
    /\ 0 <= x_offset /\ x_offset + new_width <= TARGET_SIZE
    /\ 0 <= y_offset /\ y_offset + new_height <= TARGET_SIZE
    /\ (forall raises world p out img world',
           Image_open (fs world) p = Ok img -> size img = (w, h) ->
           resize_image raises p out world = (true, world') ->
           exists canvas bg src,
             lookup (fs world') (output_path_of p out)
             = Some (File (Some canvas))
             /\ size canvas = (TARGET_SIZE, TARGET_SIZE)
             /\ data canvas
                = Pasted bg src (new_width, new_height) (x_offset, y_offset)).
Proof.
  intros Hw Hh.
  destruct (Fit.scaled_size_bounds w h Hw Hh) as (nw & nh & S & Bw & Bh).
  exists nw, nh, ((TARGET_SIZE - nw) / 2), ((TARGET_SIZE - nh) / 2).
  split; [exact S|]. split; [reflexivity|].
  split; [reflexivity|]. split; [reflexivity|].
  unfold TARGET_SIZE in *.
  split; [apply Z.div_pos; lia|].
  split; [pose proof (Z.mul_div_le (3000 - nw) 2); lia|].
  split; [apply Z.div_pos; lia|].
  split; [pose proof (Z.mul_div_le (3000 - nh) 2); lia|].
  intros raises world p out img world' O Sz R.
  destruct (Run.resize_image_true raises p out world world' R)
    as (img' & nw' & nh' & O' & S' & L & _).
  rewrite O in O'. injection O' as <-.
  rewrite Sz in S'. cbn [fst snd] in S'. rewrite S in S'.
  injection S' as <- <-.
  eexists. eexists. eexists. split; [exact L|]. split; reflexivity.
Qed.

Lemma placement_within_canvas_witness :
  exists new_width new_height x_offset y_offset,
    scaled_size 1000 4000 = Ok (new_width, new_height)
    /\ offsets new_width new_height = (x_offset, y_offset)
    /\ 0 <= x_offset /\ x_offset + new_width <= TARGET_SIZE
    /\ 0 <= y_offset /\ y_offset + new_height <= TARGET_SIZE.
Proof.
  destruct (placement_within_canvas 1000 4000)
    as (nw & nh & x & y & S & E & _ & _ & X0 & X1 & Y0 & Y1 & _).
  - unfold exact_dim. lia.
  - unfold exact_dim. lia.
  - exists nw, nh, x, y. repeat split; assumption.
Defined.

(** C5.  A run that succeeds on a source whose mode is RGBA or LA, or P
    with a transparency entry in its info, saves an RGBA canvas whose
    background is black with alpha 0; on any other source it saves an RGB
    canvas whose background is black. *)
Theorem background_follows_alpha raises w p out w' :
  resize_image raises p out w = (true, w') ->
  exists img canvas src sz off,
    Image_open (fs w) p = Ok img
    /\ lookup (fs w') (output_path_of p out) = Some (File (Some canvas))
    /\ ((mode img = "RGBA" \/ mode img = "LA"
         \/ (mode img = "P" /\ In "transparency" (info img))) ->
        mode canvas = "RGBA"
        /\ data canvas = Pasted (Solid [0; 0; 0; 0]) src sz off)
    /\ (~ (mode img = "RGBA" \/ mode img = "LA"
           \/ (mode img = "P" /\ In "transparency" (info img))) ->
        mode canvas = "RGB"
        /\ data canvas = Pasted (Solid [0; 0; 0]) src sz off).
Proof.
  intros R.
  destruct (Run.resize_image_true raises p out w w' R)
    as (img & nw & nh & O & _ & L & _).
  exists img, (composite img nw nh).
  pose proof (Run.wants_alpha_spec img) as A.
  unfold composite in *.
  destruct (wants_alpha img).
  - eexists. eexists. eexists. split; [exact O|]. split; [exact L|].
    split.
    + intros _. split; reflexivity.
    + intros N. exfalso. apply N, A. reflexivity.
  - eexists. eexists. eexists. split; [exact O|]. split; [exact L|].
    split.
    + intros H. apply A in H. discriminate.
    + intros _. split; reflexivity.
Qed.

Lemma background_follows_alpha_witness :
  exists img canvas src sz off,
    Image_open (fs photos_world) ["small.png"] = Ok img
    /\ lookup (fs small_done) (output_path_of ["small.png"] None)
       = Some (File (Some canvas))
    /\ ((mode img = "RGBA" \/ mode img = "LA"
         \/ (mode img = "P" /\ In "transparency" (info img))) ->
        mode canvas = "RGBA"
        /\ data canvas = Pasted (Solid [0; 0; 0; 0]) src sz off)
    /\ (~ (mode img = "RGBA" \/ mode img = "LA"
           \/ (mode img = "P" /\ In "transparency" (info img))) ->
        mode canvas = "RGB"
        /\ data canvas = Pasted (Solid [0; 0; 0]) src sz off).
Proof.
  apply (background_follows_alpha never photos_world ["small.png"] None
                                  small_done).
  reflexivity.
Defined.

(** C6.  Batch discovery is case-sensitive: a folder holding only
    [PHOTO.JPG] yields no image, with or without recursion, although
    [is_supported_image] accepts the name and file mode processes it; the
    same folder with [photo.jpg] is processed. *)
Theorem uppercase_extension_not_discovered :
  is_supported_image ["PHOTO.JPG"] = true
  /\ fst (process_files never [["PHOTO.JPG"]] upper_only) = (1, 0)
  /\ find_images (fs upper_only) [] false = []
  /\ find_images (fs upper_only) [] true = []
  /\ process_folder never [] false upper_only
     = ((0, 0), print (NoSupportedImages []) upper_only)
  /\ process_folder never [] true upper_only
     = ((0, 0), print (NoSupportedImages []) upper_only)
  /\ fst (process_folder never [] false lower_only) = (1, 0).
Proof.
  repeat split; reflexivity.
Qed.

(** A division by a zero side raises: no scale comes out of it. *)
Lemma compute_scale_zero w h :
  w = 0 \/ h = 0 -> exists e, compute_scale w h = Raise e.
Proof.
  intros [-> | ->]; unfold compute_scale.
  - exists ZeroDivisionError. reflexivity.
  - destruct (true_div TARGET_SIZE w) as [a|e]; cbn [bind].
    + exists ZeroDivisionError. reflexivity.
    + exists e. reflexivity.
Qed.

(** C7.  A file whose header gives a zero width or a zero height is
    rejected when it is opened, before any scale is computed:
    [Image.open] raises, [resize_image] prints the error for the file and
    answers [False] whatever else Pillow would do, leaving the file system
    as it was, and [process_files] counts the file as a failure.  Every
    image that is opened has both sides at least 1; a zero side would make
    the division raise, not yield a scale; and on sides a double holds
    exactly the scale is a positive finite double. *)
Theorem zero_dimension_is_failure raises w p out img :
  lookup (fs w) p = Some (File (Some img)) ->
  fst (size img) = 0 \/ snd (size img) = 0 ->
  Image_open (fs w) p = Raise UnidentifiedImageError
  /\ resize_image raises p out w
     = (false, print (ErrorProcessing p UnidentifiedImageError) w)
  /\ (is_supported_image p = true ->
      process_files raises [p] w
      = ((0, 1), print (ErrorProcessing p UnidentifiedImageError) w))
  /\ (forall q img',
         Image_open (fs w) q = Ok img' ->
         1 <= fst (size img') /\ 1 <= snd (size img'))
  /\ (forall a b, a = 0 \/ b = 0 -> exists e, compute_scale a b = Raise e)
  /\ (forall a b,
         exact_dim a -> exact_dim b ->
         exists scale, compute_scale a b = Ok scale /\ normal scale).
Proof.
  intros L Z0.
  assert (O : Image_open (fs w) p = Raise UnidentifiedImageError).
  { unfold Image_open. rewrite L.
    destruct Z0 as [-> | ->]; [reflexivity|].
    rewrite orb_true_r. reflexivity. }
  assert (R : forall o, resize_image raises p o w
              = (false, print (ErrorProcessing p UnidentifiedImageError) w)).
  { intros o. unfold resize_image, resize_body. rewrite O. reflexivity. }
  split; [exact O|]. split; [apply R|]. split.
  { intros Sup. unfold process_files. cbn [count_loop]. unfold process_file.
    unfold isfile. rewrite L, Sup. cbn [negb]. rewrite R. reflexivity. }
  split; [intros q img'; apply Run.Image_open_positive|].
  split; [apply compute_scale_zero|].
  intros a b Ha Hb.
  destruct (Fit.scaled_size_spec a b Ha Hb)
    as (x & y & pw & ph & _ & _ & Es & _ & _ & _ & Nx & Ny & _).
  exists (min2 x y). split; [exact Es|].
  unfold min2. destruct (SFltb y x); assumption.
Qed.

Lemma zero_dimension_is_failure_witness :
  Image_open (fs photos_world) ["zero.png"] = Raise UnidentifiedImageError
  /\ resize_image never ["zero.png"] None photos_world
     = (false, print (ErrorProcessing ["zero.png"] UnidentifiedImageError)
                     photos_world)
  /\ (is_supported_image ["zero.png"] = true ->
      process_files never [["zero.png"]] photos_world
      = ((0, 1), print (ErrorProcessing ["zero.png"] UnidentifiedImageError)
                       photos_world)).
Proof.
  destruct (zero_dimension_is_failure never photos_world ["zero.png"] None
                                      zero_wide)
    as (H1 & H2 & H3 & _).
  - reflexivity.
  - left. reflexivity.
  - split; [exact H1|]. split; [exact H2 | exact H3].
Defined.

(** C8.  A single-file path that is not a file is reported, fails, and
    is counted once as a failure; a batch path that is not a directory is
    reported and gives (0, 0), so the totals of [main] do not move. *)
Theorem missing_inputs raises w file_path folder_path recursive :
  isfile (fs w) file_path = false ->
  isdir (fs w) folder_path = false ->
  process_file raises file_path w = (false, print (FileNotFound file_path) w)
  /\ process_files raises [file_path] w
     = ((0, 1), print (FileNotFound file_path) w)
  /\ process_folder raises folder_path recursive w
     = ((0, 0), print (FolderNotFound folder_path) w)
  /\ (forall rest total_success total_failure,
         batch_loop raises (folder_path :: rest) recursive
                    total_success total_failure w
         = batch_loop raises rest recursive total_success total_failure
                      (print (FolderNotFound folder_path) w)).
Proof.
  intros F D.
  assert (P : process_file raises file_path w
              = (false, print (FileNotFound file_path) w))
    by (unfold process_file; rewrite F; reflexivity).
  assert (Q : process_folder raises folder_path recursive w
              = ((0, 0), print (FolderNotFound folder_path) w))
    by (unfold process_folder; rewrite D; reflexivity).
  split; [exact P|]. split.
  - unfold process_files. cbn [count_loop]. rewrite P. reflexivity.
  - split; [exact Q|].
    intros rest s f. cbn [batch_loop]. rewrite Q, !Z.add_0_r. reflexivity.
Qed.

Lemma missing_inputs_witness :
  process_file never ["gone.png"] photos_world
  = (false, print (FileNotFound ["gone.png"]) photos_world)
  /\ process_files never [["gone.png"]] photos_world
     = ((0, 1), print (FileNotFound ["gone.png"]) photos_world)
  /\ process_folder never ["nowhere"] true photos_world
     = ((0, 0), print (FolderNotFound ["nowhere"]) photos_world)
  /\ (forall rest total_success total_failure,
         batch_loop never (["nowhere"] :: rest) true
                    total_success total_failure photos_world
         = batch_loop never rest true total_success total_failure
                      (print (FolderNotFound ["nowhere"]) photos_world)).
Proof.
  apply (missing_inputs never photos_world ["gone.png"] ["nowhere"] true);
    reflexivity.
Defined.

(** C9.  [process_files] counts every path of its list exactly once: the
    two counts are not negative and add up to the length of the list. *)
Theorem process_files_counts_every_path raises file_paths w :
  let '(success_count, failure_count) :=
    fst (process_files raises file_paths w) in
  0 <= success_count /\ 0 <= failure_count
  /\ success_count + failure_count = Z.of_nat (List.length file_paths).
Proof.
  unfold process_files.
  pose proof (Run.count_loop_total (process_file raises) file_paths 0 0 w) as T.
  pose proof (Run.count_loop_mono (process_file raises) file_paths 0 0 w) as M.
  destruct (fst (count_loop (process_file raises) file_paths 0 0 w))
    as [s f].
  cbn [fst snd] in T, M. lia.
Qed.

(** The counts of C10 as the claim words it, files only, fail on a folder
    whose only entry is a directory named [album.jpg]: the glob returns
    the directory, opening it raises, and the result is (0, 1). *)
Lemma folder_claim_fails_on_named_subdirectory :
  ~ (forall raises w folder_path,
        isdir (fs w) folder_path = true ->
        (forall name,
            In name (file_names (fs w) folder_path) ->
            has_supported_ext name = false) ->
        fst (process_folder raises folder_path false w) = (0, 0)).
Proof.
  intros H.
  specialize (H never album_world [] eq_refl).
  assert (F : forall name,
             In name (file_names (fs album_world) []) ->
             has_supported_ext name = false)
    by (intros name []).
  specialize (H F). vm_compute in H. discriminate.
Qed.

(** C10.  An existing folder in which no listed name ends in a supported
    extension gives (0, 0) and writes nothing; its counts and the exit
    status of a batch run over it are those of a folder that does not
    exist. *)
Theorem folder_without_images raises w folder_path recursive :
  isdir (fs w) folder_path = true ->
  (forall name,
      In name (listed_names (fs w) folder_path recursive) ->
      has_supported_ext name = false) ->
  process_folder raises folder_path recursive w
  = ((0, 0), print (NoSupportedImages folder_path) w)
  /\ fst (main raises [folder_path] true recursive w) = 0
  /\ (forall missing,
         isdir (fs w) missing = false ->
         fst (process_folder raises missing recursive w)
         = fst (process_folder raises folder_path recursive w)
         /\ fst (main raises [missing] true recursive w)
            = fst (main raises [folder_path] true recursive w)).
Proof.
  intros D H.
  assert (P : process_folder raises folder_path recursive w
              = ((0, 0), print (NoSupportedImages folder_path) w)).
  { unfold process_folder. rewrite D. cbn [negb].
    rewrite (Files.find_images_nil _ _ _ H). reflexivity. }
  assert (M : fst (main raises [folder_path] true recursive w) = 0).
  { unfold main. cbn [batch_loop]. rewrite P. reflexivity. }
  split; [exact P|]. split; [exact M|].
  intros missing Dm.
  assert (Q : process_folder raises missing recursive w
              = ((0, 0), print (FolderNotFound missing) w))
    by (unfold process_folder; rewrite Dm; reflexivity).
  split.
  - rewrite P, Q. reflexivity.
  - rewrite M. unfold main. cbn [batch_loop]. rewrite Q. reflexivity.
Qed.

Lemma folder_without_images_witness :
  process_folder never ["docs"] true photos_world
  = ((0, 0), print (NoSupportedImages ["docs"]) photos_world)
  /\ fst (main never [["docs"]] true true photos_world) = 0
  /\ (forall missing,
         isdir (fs photos_world) missing = false ->
         fst (process_folder never missing true photos_world)
         = fst (process_folder never ["docs"] true photos_world)
         /\ fst (main never [missing] true true photos_world)
            = fst (main never [["docs"]] true true photos_world)).
Proof.
  apply (folder_without_images never photos_world ["docs"] true).
  - reflexivity.
  - intros name Hin. vm_compute in Hin.
    repeat (destruct Hin as [<- | Hin]; [reflexivity|]).
    contradiction.
Defined.

(** * Further properties of the scaled size *)

Module Scale.

Import PyFloat Binary64 Fit.
Open Scope Q_scope.

(** Two normal floats neither of which is below the other are the same. *)
Lemma ltb_both_false x y :
  normal x -> normal y -> SFltb x y = false -> SFltb y x = false -> x = y.
Proof.
  intros Nx Ny.
  destruct (normal_inv x Nx) as (m1 & e1 & -> & C1 & _).
  destruct (normal_inv y Ny) as (m2 & e2 & -> & C2 & _).
  unfold SFltb, SFcompare.
  change (Pos.compare_cont Eq m1 m2) with (Pos.compare m1 m2).
  change (Pos.compare_cont Eq m2 m1) with (Pos.compare m2 m1).
  destruct (Z.compare_spec e1 e2) as [Ee | Ee | Ee];
    destruct (Z.compare_spec e2 e1) as [Ee' | Ee' | Ee']; try lia;
    try discriminate.
  subst e2.
  destruct (Pos.compare_spec m1 m2) as [Em | Em | Em];
    destruct (Pos.compare_spec m2 m1) as [Em' | Em' | Em']; try lia;
    try discriminate.
  subst m2. reflexivity.
Qed.

Lemma min2_comm a b : normal a -> normal b -> min2 a b = min2 b a.
Proof.
  intros Na Nb. unfold min2.
  pose proof (ltb_Q a b Na Nb) as H1.
  pose proof (ltb_Q b a Nb Na) as H2.
  destruct (SFltb b a) eqn:E1; destruct (SFltb a b) eqn:E2; try reflexivity.
  - exfalso. apply (Qlt_irrefl (to_Q a)).
    apply Qlt_trans with (to_Q b); assumption.
  - apply ltb_both_false; assumption.
Qed.

(** The scale times the longer side is within one part in 2^52 of the
    target. *)
Lemma scale_times_longer w h a b M :
  exact_dim w -> exact_dim h ->
  normal a -> normal b ->
  (1 - u) * 3000 <= to_Q a * inject_Z w <= (1 + u) * 3000 ->
  (1 - u) * 3000 <= to_Q b * inject_Z h <= (1 + u) * 3000 ->
  (M = w \/ M = h) -> (w <= M)%Z -> (h <= M)%Z ->
  (1 - u) * 3000 <= to_Q (min2 a b) * inject_Z M <= (1 + u) * 3000.
Proof.
  intros Hw Hh Na Nb [Ba Ba'] [Bb Bb'] HM Hwm Hhm.
  destruct (min2_Q a b Na Nb) as (Ns & Cs & Es).
  pose proof (normal_pos _ Ns) as Ps.
  assert (Sa : to_Q (min2 a b) <= to_Q a) by (rewrite Es; apply Q.le_min_l).
  assert (Sb : to_Q (min2 a b) <= to_Q b) by (rewrite Es; apply Q.le_min_r).
  assert (Pw : 0 < inject_Z w)
    by (change 0 with (inject_Z 0); rewrite <- Zlt_Qlt; unfold exact_dim in Hw; lia).
  assert (Ph : 0 < inject_Z h)
    by (change 0 with (inject_Z 0); rewrite <- Zlt_Qlt; unfold exact_dim in Hh; lia).
  assert (Wm : inject_Z w <= inject_Z M) by (rewrite <- Zle_Qle; exact Hwm).
  assert (Hm : inject_Z h <= inject_Z M) by (rewrite <- Zle_Qle; exact Hhm).
  split.
  - (* the scale is one of the quotients, and M is at least its divisor *)
    destruct Cs as [E | E]; rewrite E.
    + apply Qle_trans with (1 := Ba).
      apply Qmult_le_l; [apply normal_pos, Na | exact Wm].
    + apply Qle_trans with (1 := Bb).
      apply Qmult_le_l; [apply normal_pos, Nb | exact Hm].
  - destruct HM as [-> | ->].
    + apply Qle_trans with (2 := Ba').
      apply Qmult_le_compat_r; [exact Sa | apply Qlt_le_weak, Pw].
    + apply Qle_trans with (2 := Bb').
      apply Qmult_le_compat_r; [exact Sb | apply Qlt_le_weak, Ph].
Qed.


Lemma inject_pos n : (0 < n)%Z -> 0 < inject_Z n.
Proof. intros H. change 0 with (inject_Z 0). rewrite <- Zlt_Qlt. exact H. Qed.

Lemma floor_ge z q : inject_Z z <= q -> (z <= Qfloor q)%Z.
Proof.
  intros H. rewrite <- (Qfloor_Z z). apply Qfloor_resp_le. exact H.
Qed.

Lemma floor_lt z q : q < inject_Z z -> (Qfloor q < z)%Z.
Proof.
  intros H. rewrite Zlt_Qlt.
  apply Qle_lt_trans with (2 := H). apply Qfloor_le.
Qed.

(** Each binary64 product, times the longer side [M], is within two parts
    in 2^52 of 3000 times its own side. *)
Lemma scaled_size_ratio w h M :
  exact_dim w -> exact_dim h ->
  (M = w \/ M = h) -> (w <= M)%Z -> (h <= M)%Z ->
  exists pw ph,
    normal pw /\ normal ph
    /\ scaled_size w h = Ok (Qfloor (to_Q pw), Qfloor (to_Q ph))
    /\ (1 - u) * ((1 - u) * (3000 * inject_Z w)) <= to_Q pw * inject_Z M
       <= (1 + u) * ((1 + u) * (3000 * inject_Z w))
    /\ (1 - u) * ((1 - u) * (3000 * inject_Z h)) <= to_Q ph * inject_Z M
       <= (1 + u) * ((1 + u) * (3000 * inject_Z h)).
Proof.
  intros Hw Hh HM Hwm Hhm.
  destruct (scaled_size_spec w h Hw Hh)
    as (a & b & pw & ph & _ & _ & _ & _ & _ & E & Na & Nb & Npw & Nph
        & Ba & Bb & Bw & Bh).
  pose proof (scale_times_longer w h a b M Hw Hh Na Nb Ba Bb HM Hwm Hhm)
    as [S1 S2].
  destruct (min2_Q a b Na Nb) as (Ns & _ & _).
  pose proof (normal_pos _ Ns) as Ps.
  pose proof (inject_pos w (proj1 Hw)) as Pw.
  pose proof (inject_pos h (proj1 Hh)) as Ph.
  assert (Pm : 0 < inject_Z M) by (apply inject_pos; unfold exact_dim in Hw; lia).
  exists pw, ph. split; [exact Npw|]. split; [exact Nph|]. split; [exact E|].
  set (s := to_Q (min2 a b)) in *.
  set (W := inject_Z w) in *. set (H := inject_Z h) in *.
  set (Mq := inject_Z M) in *.
  set (P := to_Q pw) in *. set (R := to_Q ph) in *.
  assert (U1 : 0 < 1 - u) by reflexivity.
  assert (U2 : 0 < 1 + u) by reflexivity.
  destruct Bw as [Bw1 Bw2]. destruct Bh as [Bh1 Bh2].
  repeat split.
  - apply Qle_trans with ((1 - u) * (W * s) * Mq).
    + setoid_replace ((1 - u) * (W * s) * Mq)
        with ((1 - u) * (W * (s * Mq))) by ring.
      apply Qmult_le_l; [exact U1|].
      setoid_replace ((1 - u) * (3000 * W)) with (W * ((1 - u) * 3000)) by ring.
      apply Qmult_le_l; assumption.
    + apply Qmult_le_compat_r; [exact Bw1 | apply Qlt_le_weak, Pm].
  - apply Qle_trans with ((1 + u) * (W * s) * Mq).
    + apply Qmult_le_compat_r; [exact Bw2 | apply Qlt_le_weak, Pm].
    + setoid_replace ((1 + u) * (W * s) * Mq)
        with ((1 + u) * (W * (s * Mq))) by ring.
      apply Qmult_le_l; [exact U2|].
      setoid_replace ((1 + u) * (3000 * W)) with (W * ((1 + u) * 3000)) by ring.
      apply Qmult_le_l; assumption.
  - apply Qle_trans with ((1 - u) * (H * s) * Mq).
    + setoid_replace ((1 - u) * (H * s) * Mq)
        with ((1 - u) * (H * (s * Mq))) by ring.
      apply Qmult_le_l; [exact U1|].
      setoid_replace ((1 - u) * (3000 * H)) with (H * ((1 - u) * 3000)) by ring.
      apply Qmult_le_l; assumption.
    + apply Qmult_le_compat_r; [exact Bh1 | apply Qlt_le_weak, Pm].
  - apply Qle_trans with ((1 + u) * (H * s) * Mq).
    + apply Qmult_le_compat_r; [exact Bh2 | apply Qlt_le_weak, Pm].
    + setoid_replace ((1 + u) * (H * s) * Mq)
        with ((1 + u) * (H * (s * Mq))) by ring.
      apply Qmult_le_l; [exact U2|].
      setoid_replace ((1 + u) * (3000 * H)) with (H * ((1 + u) * 3000)) by ring.
      apply Qmult_le_l; assumption.
Qed.

(** Cancelling the longer side. *)
Lemma ratio_le_one p x M :
  0 < inject_Z M -> p * inject_Z M <= x -> x < inject_Z M -> p < 1.
Proof.
  intros Pm H1 H2.
  destruct (Qlt_le_dec p 1) as [|Hge]; [assumption|].
  exfalso. apply (Qlt_irrefl (inject_Z M)).
  apply Qle_lt_trans with (2 := H2).
  apply Qle_trans with (2 := H1).
  rewrite <- (Qmult_1_l (inject_Z M)) at 1.
  apply Qmult_le_compat_r; [exact Hge | apply Qlt_le_weak, Pm].
Qed.

Lemma ratio_ge p c M :
  0 < inject_Z M -> c * inject_Z M <= p * inject_Z M -> c <= p.
Proof.
  intros Pm H. apply Qmult_le_r with (inject_Z M); assumption.
Qed.

Lemma ratio_lt p c M :
  0 < inject_Z M -> p * inject_Z M < c * inject_Z M -> p < c.
Proof.
  intros Pm H. apply Qmult_lt_r with (inject_Z M); assumption.
Qed.

End Scale.

(** * Further properties *)

(** X1.  Transposing the source transposes the scaled size: a w x h
    source scaled to nw x nh means the h x w source is scaled to
    nh x nw. *)
Theorem scaled_size_transpose w h :
  exact_dim w -> exact_dim h ->
  exists new_width new_height,
    scaled_size w h = Ok (new_width, new_height)
    /\ scaled_size h w = Ok (new_height, new_width).
Proof.
  intros Hw Hh.
  destruct (Fit.scaled_size_spec w h Hw Hh)
    as (a & b & pw & ph & Ea & Eb & _ & Epw & Eph & E & Na & Nb & Npw & Nph & _).
  exists (Qfloor (to_Q pw)), (Qfloor (to_Q ph)). split; [exact E|].
  unfold scaled_size, compute_scale. rewrite Eb, Ea. cbn [bind].
  rewrite <- (Scale.min2_comm a b Na Nb).
  rewrite Eph. cbn [bind]. rewrite (Binary64.to_int_Q ph Nph). cbn [bind].
  rewrite Epw. cbn [bind]. rewrite (Binary64.to_int_Q pw Npw). reflexivity.
Qed.

Lemma scaled_size_transpose_witness :
  exists new_width new_height,
    scaled_size 4000 2000 = Ok (new_width, new_height)
    /\ scaled_size 2000 4000 = Ok (new_height, new_width).
Proof.
  apply (scaled_size_transpose 4000 2000); unfold exact_dim; lia.
Defined.

(** X2.  The longer side of the source is scaled to the target or to one
    pixel less, never to anything else. *)
Theorem longer_side_is_target_or_one_less w h :
  exact_dim w -> exact_dim h ->
  exists new_width new_height,
    scaled_size w h = Ok (new_width, new_height)
    /\ (h <= w -> new_width = 2999 \/ new_width = 3000)
    /\ (w <= h -> new_height = 2999 \/ new_height = 3000).
Proof.
  intros Hw Hh.
  destruct (Fit.longer_side_near_target w h Hw Hh) as (nw & nh & E & A & B).
  exists nw, nh. split; [exact E|].
  split; intros H; [specialize (A H) | specialize (B H)]; lia.
Qed.

Lemma longer_side_is_target_or_one_less_witness :
  exists new_width new_height,
    scaled_size 1920 1080 = Ok (new_width, new_height)
    /\ (1080 <= 1920 -> new_width = 2999 \/ new_width = 3000)
    /\ (1920 <= 1080 -> new_height = 2999 \/ new_height = 3000).
Proof.
  apply (longer_side_is_target_or_one_less 1920 1080); unfold exact_dim; lia.
Defined.

(** X3.  A side at least 3001 times shorter than the other is scaled to
    0 pixels. *)
Theorem extreme_ratio_scales_short_side_to_zero w h :
  exact_dim w -> exact_dim h ->
  exists new_width new_height,
    scaled_size w h = Ok (new_width, new_height)
    /\ (3001 * w <= h -> new_width = 0)
    /\ (3001 * h <= w -> new_height = 0).
Proof.
  intros Hw Hh.
  destruct (Scale.scaled_size_ratio w h (Z.max w h) Hw Hh)
    as (pw & ph & Npw & Nph & E & [_ Bw] & [_ Bh]); try lia.
  exists (Qfloor (to_Q pw)), (Qfloor (to_Q ph)). split; [exact E|].
  pose proof (Scale.inject_pos w (proj1 Hw)) as Pw.
  pose proof (Scale.inject_pos h (proj1 Hh)) as Ph.
  pose proof (Binary64.normal_pos _ Npw) as Ppw.
  pose proof (Binary64.normal_pos _ Nph) as Pph.
  split; intros R.
  - assert (L : (0 <= Qfloor (to_Q pw))%Z)
      by (apply Scale.floor_ge, Qlt_le_weak, Ppw).
    assert (U : (Qfloor (to_Q pw) < 1)%Z).
    { apply Scale.floor_lt.
      replace (Z.max w h) with h in Bw by (unfold exact_dim in *; lia).
      apply (Scale.ratio_le_one _ _ h Ph Bw).
      assert (I : (inject_Z 3001 * inject_Z w <= inject_Z h)%Q)
        by (rewrite <- inject_Z_mult, <- Zle_Qle; exact R).
      change (inject_Z 3001) with (3001 # 1)%Q in I.
      unfold u. lra. }
    lia.
  - assert (L : (0 <= Qfloor (to_Q ph))%Z)
      by (apply Scale.floor_ge, Qlt_le_weak, Pph).
    assert (U : (Qfloor (to_Q ph) < 1)%Z).
    { apply Scale.floor_lt.
      replace (Z.max w h) with w in Bh by (unfold exact_dim in *; lia).
      apply (Scale.ratio_le_one _ _ w Pw Bh).
      assert (I : (inject_Z 3001 * inject_Z h <= inject_Z w)%Q)
        by (rewrite <- inject_Z_mult, <- Zle_Qle; exact R).
      change (inject_Z 3001) with (3001 # 1)%Q in I.
      unfold u. lra. }
    lia.
Qed.

Lemma extreme_ratio_scales_short_side_to_zero_witness :
  exists new_width new_height,
    scaled_size 2 6002 = Ok (new_width, new_height)
    /\ (3001 * 2 <= 6002 -> new_width = 0)
    /\ (3001 * 6002 <= 2 -> new_height = 0).
Proof.
  apply (extreme_ratio_scales_short_side_to_zero 2 6002); unfold exact_dim; lia.
Defined.

(** X4.  When neither side is more than 2999 times the other, both scaled
    dimensions are at least 1 pixel. *)
Theorem moderate_ratio_keeps_both_sides_positive w h :
  exact_dim w -> exact_dim h ->
  h <= 2999 * w -> w <= 2999 * h ->
  exists new_width new_height,
    scaled_size w h = Ok (new_width, new_height)
    /\ 1 <= new_width /\ 1 <= new_height.
Proof.
  intros Hw Hh Rw Rh.
  destruct (Scale.scaled_size_ratio w h (Z.max w h) Hw Hh)
    as (pw & ph & Npw & Nph & E & [Bw _] & [Bh _]); try lia.
  exists (Qfloor (to_Q pw)), (Qfloor (to_Q ph)). split; [exact E|].
  pose proof (Scale.inject_pos w (proj1 Hw)) as Pw.
  pose proof (Scale.inject_pos h (proj1 Hh)) as Ph.
  assert (Pm : (0 < inject_Z (Z.max w h))%Q)
    by (apply Scale.inject_pos; unfold exact_dim in *; lia).
  assert (Mw : (inject_Z (Z.max w h) <= inject_Z 2999 * inject_Z w)%Q)
    by (rewrite <- inject_Z_mult, <- Zle_Qle; lia).
  assert (Mh : (inject_Z (Z.max w h) <= inject_Z 2999 * inject_Z h)%Q)
    by (rewrite <- inject_Z_mult, <- Zle_Qle; lia).
  change (inject_Z 2999) with (2999 # 1)%Q in Mw, Mh.
  split; apply Scale.floor_ge;
    apply (Scale.ratio_ge _ _ (Z.max w h) Pm);
    change (inject_Z 1) with 1%Q; unfold u in *; lra.
Qed.

Lemma moderate_ratio_keeps_both_sides_positive_witness :
  exists new_width new_height,
    scaled_size 1 2999 = Ok (new_width, new_height)
    /\ 1 <= new_width /\ 1 <= new_height.
Proof.
  apply (moderate_ratio_keeps_both_sides_positive 1 2999);
    unfold exact_dim; lia.
Defined.

(** X5.  The direction of the scaling: a source smaller than the target
    on both sides is never shrunk on either side, and a source that
    reaches the target on one side is never enlarged on either side. *)
Theorem scaling_direction w h :
  pillow_dim w -> pillow_dim h ->
  exists new_width new_height,
    scaled_size w h = Ok (new_width, new_height)
    /\ (w < 3000 /\ h < 3000 -> w <= new_width /\ h <= new_height)
    /\ (3000 <= w \/ 3000 <= h -> new_width <= w /\ new_height <= h).
Proof.
  intros Dw Dh.
  assert (Hw : exact_dim w) by (unfold pillow_dim, exact_dim in *; lia).
  assert (Hh : exact_dim h) by (unfold pillow_dim, exact_dim in *; lia).
  destruct (Scale.scaled_size_ratio w h (Z.max w h) Hw Hh)
    as (pw & ph & Npw & Nph & E & [Bw1 Bw2] & [Bh1 Bh2]); try lia.
  exists (Qfloor (to_Q pw)), (Qfloor (to_Q ph)). split; [exact E|].
  pose proof (Scale.inject_pos w (proj1 Hw)) as Pw.
  pose proof (Scale.inject_pos h (proj1 Hh)) as Ph.
  assert (Pm : (0 < inject_Z (Z.max w h))%Q)
    by (apply Scale.inject_pos; unfold exact_dim in *; lia).
  assert (Lw : (inject_Z w <= inject_Z (2 ^ 31))%Q)
    by (rewrite <- Zle_Qle; unfold pillow_dim in Dw; lia).
  assert (Lh : (inject_Z h <= inject_Z (2 ^ 31))%Q)
    by (rewrite <- Zle_Qle; unfold pillow_dim in Dh; lia).
  change (inject_Z (2 ^ 31)) with (2147483648 # 1)%Q in Lw, Lh.
  set (W := inject_Z w) in *. set (H := inject_Z h) in *.
  set (Mq := inject_Z (Z.max w h)) in *.
  split.
  - intros [Sw Sh].
    assert (Mb : (Mq <= 2999 # 1)%Q)
      by (change (2999 # 1)%Q with (inject_Z 2999); unfold Mq;
          rewrite <- Zle_Qle; lia).
    split; apply Scale.floor_ge; apply (Scale.ratio_ge _ _ (Z.max w h) Pm);
      fold Mq.
    + apply Qle_trans with (2 := Bw1).
      apply Qle_trans with (W * (2999 # 1))%Q.
      * apply Qmult_le_l; assumption.
      * unfold u. lra.
    + apply Qle_trans with (2 := Bh1).
      apply Qle_trans with (H * (2999 # 1))%Q.
      * apply Qmult_le_l; assumption.
      * unfold u. lra.
  - intros L.
    assert (Mb : (3000 # 1 <= Mq)%Q)
      by (change (3000 # 1)%Q with (inject_Z 3000); unfold Mq;
          rewrite <- Zle_Qle; lia).
    split; apply Z.lt_succ_r; apply Scale.floor_lt;
      unfold Z.succ; rewrite inject_Z_plus; change (inject_Z 1) with 1%Q;
      apply (Scale.ratio_lt _ _ (Z.max w h) Pm); fold Mq.
    + fold W. apply Qle_lt_trans with (1 := Bw2).
      apply Qlt_le_trans with ((W + 1) * (3000 # 1))%Q.
      * unfold u. lra.
      * apply Qmult_le_l; [lra | exact Mb].
    + fold H. apply Qle_lt_trans with (1 := Bh2).
      apply Qlt_le_trans with ((H + 1) * (3000 # 1))%Q.
      * unfold u. lra.
      * apply Qmult_le_l; [lra | exact Mb].
Qed.

Lemma scaling_direction_witness :
  exists new_width new_height,
    scaled_size 640 480 = Ok (new_width, new_height)
    /\ (640 < 3000 /\ 480 < 3000 -> 640 <= new_width /\ 480 <= new_height)
    /\ (3000 <= 640 \/ 3000 <= 480 -> new_width <= 640 /\ new_height <= 480).
Proof.
  apply (scaling_direction 640 480); unfold pillow_dim; lia.
Defined.

(** X6.  The scaled image keeps the orientation of the source: the side
    that is not longer in the source is not longer after scaling. *)
Theorem scaling_keeps_orientation w h :
  pillow_dim w -> pillow_dim h ->
  exists new_width new_height,
    scaled_size w h = Ok (new_width, new_height)
    /\ (w <= h -> new_width <= new_height)
    /\ (h <= w -> new_height <= new_width).
Proof.
  intros Dw Dh.
  assert (Hw : exact_dim w) by (unfold pillow_dim, exact_dim in *; lia).
  assert (Hh : exact_dim h) by (unfold pillow_dim, exact_dim in *; lia).
  destruct (Fit.scaled_size_spec w h Hw Hh)
    as (a & b & pw & ph & _ & _ & _ & Epw & Eph & E & Na & Nb & Npw & Nph
        & _ & _ & [Bw1 Bw2] & [Bh1 Bh2]).
  exists (Qfloor (to_Q pw)), (Qfloor (to_Q ph)). split; [exact E|].
  destruct (Binary64.min2_Q a b Na Nb) as (Ns & _ & _).
  pose proof (Binary64.normal_pos _ Ns) as Ps.
  pose proof (Scale.inject_pos w (proj1 Hw)) as Pw.
  pose proof (Scale.inject_pos h (proj1 Hh)) as Ph.
  assert (Lw : (inject_Z w <= inject_Z (2 ^ 31))%Q)
    by (rewrite <- Zle_Qle; unfold pillow_dim in Dw; lia).
  assert (Lh : (inject_Z h <= inject_Z (2 ^ 31))%Q)
    by (rewrite <- Zle_Qle; unfold pillow_dim in Dh; lia).
  change (inject_Z (2 ^ 31)) with (2147483648 # 1)%Q in Lw, Lh.
  assert (Key : forall x y px py,
             (x <= y)%Z ->
             int_mul x (min2 a b) = Ok px -> int_mul y (min2 a b) = Ok py ->
             (0 < inject_Z x)%Q -> (inject_Z y <= 2147483648 # 1)%Q ->
             (to_Q px <= (1 + u) * (inject_Z x * to_Q (min2 a b)))%Q ->
             ((1 - u) * (inject_Z y * to_Q (min2 a b)) <= to_Q py)%Q ->
             (Qfloor (to_Q px) <= Qfloor (to_Q py))%Z).
  { intros x y px py Hxy Ex Ey Px Ly Bx By.
    destruct (Z.eq_dec x y) as [-> | Ne].
    - rewrite Ex in Ey. injection Ey as <-. lia.
    - apply Qfloor_resp_le.
      apply Qle_trans with (1 := Bx). apply Qle_trans with (2 := By).
      rewrite !Qmult_assoc.
      apply Qmult_le_compat_r; [|apply Qlt_le_weak, Ps].
      assert (I : (inject_Z x + 1 <= inject_Z y)%Q)
        by (change 1%Q with (inject_Z 1); rewrite <- inject_Z_plus, <- Zle_Qle; lia).
      unfold u. lra. }
  split; intros Hle.
  - apply (Key w h pw ph); assumption.
  - apply (Key h w ph pw); assumption.
Qed.

Lemma scaling_keeps_orientation_witness :
  exists new_width new_height,
    scaled_size 1000 4000 = Ok (new_width, new_height)
    /\ (1000 <= 4000 -> new_width <= new_height)
    /\ (4000 <= 1000 -> new_height <= new_width).
Proof.
  apply (scaling_keeps_orientation 1000 4000); unfold pillow_dim; lia.
Defined.

(** * Further properties of names, files and the driver *)

Module Names.

Lemma lower_ascii_dot c :
  Ascii.eqb (lower_ascii c) "." = Ascii.eqb c ".".
Proof. destruct c as [[] [] [] [] [] [] [] []]; reflexivity. Qed.

Lemma lower_ascii_idem c : lower_ascii (lower_ascii c) = lower_ascii c.
Proof. destruct c as [[] [] [] [] [] [] [] []]; reflexivity. Qed.

Lemma lower_idem s : lower (lower s) = lower s.
Proof.
  induction s as [|c s IH]; [reflexivity|].
  cbn [lower]. rewrite lower_ascii_idem, IH. reflexivity.
Qed.

Lemma lower_length s : String.length (lower s) = String.length s.
Proof. induction s as [|c s IH]; [reflexivity|]. cbn. now rewrite IH. Qed.

Lemma lower_rfind_dot s : rfind_dot (lower s) = rfind_dot s.
Proof.
  induction s as [|c s IH]; [reflexivity|].
  cbn [lower rfind_dot]. rewrite IH, lower_ascii_dot. reflexivity.
Qed.

Lemma lower_substring s :
  forall n m, substring n m (lower s) = lower (substring n m s).
Proof.
  induction s as [|c s IH]; intros n m.
  - destruct n, m; reflexivity.
  - destruct n as [|n].
    + destruct m as [|m]; [reflexivity|].
      cbn [lower substring]. rewrite IH. reflexivity.
    + cbn [lower substring]. apply IH.
Qed.

(** Lowering a name lowers its suffix. *)
Lemma lower_suffix s : suffix (lower s) = lower (suffix s).
Proof.
  unfold suffix. rewrite lower_rfind_dot, lower_length.
  destruct (rfind_dot s) as [i|]; [|reflexivity].
  destruct (_ && _)%bool; [apply lower_substring | reflexivity].
Qed.

Lemma append_length s t :
  String.length (s ++ t) = (String.length s + String.length t)%nat.
Proof. induction s as [|c s IH]; [reflexivity|]. cbn. now rewrite IH. Qed.

Lemma rfind_dot_append s t :
  rfind_dot (s ++ t)
  = match rfind_dot t with
    | Some j => Some (String.length s + j)%nat
    | None => rfind_dot s
    end.
Proof.
  induction s as [|c s IH].
  - cbn. destruct (rfind_dot t); reflexivity.
  - cbn [append rfind_dot String.length]. rewrite IH.
    destruct (rfind_dot t); reflexivity.
Qed.

Lemma substring_skip s t :
  forall k n, substring (String.length s + k) n (s ++ t) = substring k n t.
Proof. induction s as [|c s IH]; intros k n; [reflexivity|]. cbn. apply IH. Qed.

(** Whatever precedes it, the marker of the output name ends in [.png]. *)
Lemma suffix_of_output s : suffix (s ++ "_3000x3000.png") = ".png".
Proof.
  unfold suffix. rewrite rfind_dot_append, append_length.
  cbn [rfind_dot String.length Ascii.eqb Bool.eqb].
  replace (Nat.ltb 0 (String.length s + 10)) with true
    by (symmetry; apply Nat.ltb_lt; lia).
  replace (Nat.ltb (String.length s + 10) (String.length s + 14 - 1)) with true
    by (symmetry; apply Nat.ltb_lt; lia).
  cbn [andb].
  replace (String.length s + 14 - (String.length s + 10))%nat with 4%nat by lia.
  rewrite substring_skip. reflexivity.
Qed.

Lemma ends_with_append s t ext :
  ends_with t ext = true -> ends_with (s ++ t) ext = true.
Proof.
  intros H. induction s as [|c s IH]; [exact H|].
  cbn [append ends_with]. rewrite IH. apply orb_true_r.
Qed.

(** The character after the stem of a name with a suffix is its dot. *)
Lemma rfind_dot_prefix s :
  forall i c t,
    rfind_dot s = Some i -> (substring 0 i s ++ String c t)%string = s ->
    c = "."%char.
Proof.
  induction s as [|a s IH]; intros i c t R E; [discriminate|].
  cbn [rfind_dot] in R.
  destruct (rfind_dot s) as [j|] eqn:Rs.
  - injection R as <-. cbn [substring append] in E.
    injection E as E. exact (IH j c t eq_refl E).
  - destruct (Ascii.eqb a ".") eqn:Ea; [|discriminate].
    injection R as <-. cbn [substring append] in E.
    injection E as E _. apply Ascii.eqb_eq in Ea. congruence.
Qed.

Lemma stem_extended_differs name c t :
  c <> "."%char -> (stem name ++ String c t)%string <> name.
Proof.
  intros Hc E.
  assert (Self : (name ++ String c t)%string <> name).
  { intros E'. apply (f_equal String.length) in E'.
    rewrite append_length in E'. cbn in E'. lia. }
  unfold stem in E.
  destruct (rfind_dot name) as [i|] eqn:R; [|exact (Self E)].
  destruct (_ && _)%bool; [|exact (Self E)].
  exact (Hc (rfind_dot_prefix name i c t R E)).
Qed.

(** The default output path never is the input path. *)
Lemma default_output_differs p : default_output p <> p.
Proof.
  unfold default_output, parent, name_of. intros E.
  destruct p as [|x p']; [destruct (_ ++ _)%string; discriminate|].
  rewrite (app_removelast_last "" (l := x :: p')) in E at 3 by discriminate.
  apply app_inj_tail in E as [_ E].
  revert E. apply stem_extended_differs. discriminate.
Qed.

End Names.

Module Disk.

Lemma assoc_set_other {A} k k' (v : A) l :
  k' <> k -> assoc k' (assoc_set k v l) = assoc k' l.
Proof.
  intros Hk. induction l as [|[k0 v0] tl IH]; cbn [assoc_set assoc].
  - destruct (String.eqb_spec k' k); [contradiction | reflexivity].
  - destruct (String.eqb_spec k k0) as [-> | Hk0]; cbn [assoc].
    + destruct (String.eqb_spec k' k0); [contradiction | reflexivity].
    + destruct (String.eqb k' k0); [reflexivity | exact IH].
Qed.

Lemma assoc_set_In {A} k (v : A) l : In (k, v) (assoc_set k v l).
Proof.
  induction l as [|[k0 v0] tl IH]; cbn [assoc_set]; [left; reflexivity|].
  destruct (String.eqb k k0); [left; reflexivity | right; exact IH].
Qed.

Lemma lookup_file_below c q : q <> [] -> lookup (File c) q = None.
Proof. destruct q; [congruence | reflexivity]. Qed.

(** A write changes no file but the one written, and turns nothing into a
    directory or out of one. *)
Lemma write_frame p :
  forall n n' im q,
    write n p im = Ok n' -> q <> p ->
    Image_open n' q = Image_open n q
    /\ isfile n' q = isfile n q /\ isdir n' q = isdir n q.
Proof.
  unfold Image_open, isfile, isdir.
  induction p as [|name rest IH]; intros n n' im q W Hq.
  - destruct n; discriminate.
  - destruct n as [c|es]; [destruct rest; discriminate|].
    destruct rest as [|r rest'].
    + cbn [write] in W.
      assert (N : n' = Dir (assoc_set name (File im) es)
                  /\ forall es', assoc name es <> Some (Dir es')).
      { destruct (assoc name es) as [[c|es']|]; try discriminate;
          injection W as <-; split; try reflexivity; congruence. }
      destruct N as [-> ND].
      destruct q as [|x q']; [auto|].
      cbn [lookup].
      destruct (String.eqb_spec x name) as [-> | Hx].
      * assert (Hq' : q' <> []) by congruence.
        rewrite Files.assoc_set_same, (lookup_file_below _ _ Hq').
        destruct (assoc name es) as [[c|es']|];
          [rewrite (lookup_file_below _ _ Hq'); auto
          | exfalso; exact (ND es' eq_refl) | auto].
      * rewrite (assoc_set_other name x _ es Hx). auto.
    + rewrite Files.write_cons in W.
      destruct (assoc name es) as [c|] eqn:A; [|discriminate].
      destruct (write c (r :: rest') im) as [c'|] eqn:Wc; cbn [bind] in W;
        [|discriminate].
      injection W as <-.
      destruct q as [|x q']; [auto|].
      cbn [lookup].
      destruct (String.eqb_spec x name) as [-> | Hx].
      * rewrite Files.assoc_set_same, A.
        apply (IH c c' im q' Wc). congruence.
      * rewrite (assoc_set_other name x _ es Hx). auto.
Qed.

(** After a write the parent lists the file. *)
Lemma write_parent_entry q :
  forall n n' name im,
    write n (q ++ [name])%list im = Ok n' ->
    exists es, lookup n' q = Some (Dir es) /\ In (name, File im) es.
Proof.
  induction q as [|x q IH]; intros n n' name im W.
  - cbn [app] in W. destruct n as [c|es]; [discriminate|].
    cbn [write] in W.
    exists (assoc_set name (File im) es). split.
    + destruct (assoc name es) as [[c|es']|]; try discriminate;
        injection W as <-; reflexivity.
    + apply assoc_set_In.
  - destruct n as [c|es];
      [cbn [app] in W; destruct (q ++ [name])%list; discriminate|].
    cbn [app] in W.
    destruct (q ++ [name])%list as [|y l] eqn:El;
      [destruct q; discriminate|].
    rewrite Files.write_cons in W.
    destruct (assoc x es) as [c|] eqn:A; [|discriminate].
    destruct (write c (y :: l) im) as [c'|] eqn:Wc; cbn [bind] in W;
      [|discriminate].
    injection W as <-.
    destruct (IH c c' name im) as (es' & L & I); [rewrite El; exact Wc|].
    exists es'. cbn [lookup]. rewrite Files.assoc_set_same. auto.
Qed.

End Disk.

Module Loop.

Section WithStep.

Variable step : path -> world -> bool * world.

(** The counters only carry the totals along. *)
Lemma count_loop_shift paths :
  forall s f w,
    count_loop step paths s f w
    = (let '((s', f'), w') := count_loop step paths 0 0 w in
       ((s + s', f + f'), w')).
Proof.
  induction paths as [|p rest IH]; intros s f w.
  - cbn [count_loop]. rewrite !Z.add_0_r. reflexivity.
  - cbn [count_loop]. destruct (step p w) as [[|] w1].
    + rewrite (IH (s + 1) f), (IH (0 + 1) 0).
      destruct (count_loop step rest 0 0 w1) as [[s' f'] w'].
      f_equal. f_equal; lia.
    + rewrite (IH s (f + 1)), (IH 0 (0 + 1)).
      destruct (count_loop step rest 0 0 w1) as [[s' f'] w'].
      f_equal. f_equal; lia.
Qed.

Lemma count_loop_app l1 l2 :
  forall s f w,
    count_loop step (l1 ++ l2) s f w
    = (let '((s1, f1), w1) := count_loop step l1 s f w in
       count_loop step l2 s1 f1 w1).
Proof.
  induction l1 as [|p rest IH]; intros s f w; [reflexivity|].
  cbn [app count_loop]. destruct (step p w) as [[|] w1]; apply IH.
Qed.

(** If every step prints one message, the loop prints one per path. *)
Lemma count_loop_stdout paths :
  (forall p w, exists m, stdout (snd (step p w)) = (stdout w ++ [m])%list) ->
  forall s f w,
  exists msgs,
    stdout (snd (count_loop step paths s f w)) = (stdout w ++ msgs)%list
    /\ List.length msgs = List.length paths.
Proof.
  intros One. induction paths as [|p rest IH]; intros s f w.
  - exists []. cbn [count_loop snd]. rewrite app_nil_r. auto.
  - cbn [count_loop]. destruct (One p w) as [m Hm].
    destruct (step p w) as [[|] w1]; cbn [snd] in Hm.
    + destruct (IH (s + 1) f w1) as (msgs & E & L).
      exists (m :: msgs). rewrite E, Hm, <- app_assoc. cbn. auto.
    + destruct (IH s (f + 1) w1) as (msgs & E & L).
      exists (m :: msgs). rewrite E, Hm, <- app_assoc. cbn. auto.
Qed.

End WithStep.

End Loop.

Module Tree.

Lemma lookup_app a :
  forall n b,
    lookup n (a ++ b)%list
    = match lookup n a with
      | Some m => lookup m b
      | None => None
      end.
Proof.
  induction a as [|x a IH]; intros n b; [reflexivity|].
  cbn [app lookup]. destruct n as [c|es]; [reflexivity|].
  destruct (assoc x es); [apply IH | reflexivity].
Qed.

Lemma assoc_In {A} k (v : A) l : assoc k l = Some v -> In (k, v) l.
Proof.
  induction l as [|[k0 v0] tl IH]; cbn [assoc]; [discriminate|].
  destruct (String.eqb_spec k k0) as [-> | _].
  - intros E. injection E as ->. left. reflexivity.
  - intros E. right. exact (IH E).
Qed.

Lemma last_app {A} (l r : list A) d :
  r <> [] -> last (l ++ r)%list d = last r d.
Proof.
  intros Hr. induction l as [|x l IH]; [reflexivity|].
  cbn [app]. destruct (l ++ r)%list eqn:E.
  - destruct l; [contradiction | discriminate].
  - exact IH.
Qed.

(** The walk of a directory contains the walk of each of its entries. *)
Lemma walk_entry pat pre es x c :
  In (x, c) es ->
  incl (walk pat (pre ++ [x])%list c) (walk pat pre (Dir es)).
Proof.
  intros I p Hp. cbn [walk]. apply in_or_app. right.
  induction es as [|[y d] tl IH]; [contradiction|].
  apply in_or_app. destruct I as [E | I].
  - injection E as -> ->. left. exact Hp.
  - right. exact (IH I).
Qed.

(** The walk contains the matches of every directory at or below its
    start. *)
Lemma walk_covers pat rest :
  forall n pre es,
    lookup n rest = Some (Dir es) ->
    incl (matching pat (pre ++ rest)%list es) (walk pat pre n).
Proof.
  induction rest as [|x rest IH]; intros n pre es L p Hp.
  - injection L as ->. rewrite app_nil_r in Hp.
    cbn [walk]. apply in_or_app. left. exact Hp.
  - cbn [lookup] in L. destruct n as [c|es0]; [discriminate|].
    destruct (assoc x es0) as [c|] eqn:A; [|discriminate].
    apply (walk_entry pat pre es0 x c (assoc_In _ _ _ A)).
    apply (IH c (pre ++ [x])%list es L).
    rewrite <- app_assoc. exact Hp.
Qed.

(** Every path of a walk is its start extended by names the last of which
    matches. *)
Lemma walk_below pat n :
  forall pre p,
    In p (walk pat pre n) ->
    exists rest,
      p = (pre ++ rest)%list /\ rest <> []
      /\ fnmatch pat (last rest "") = true.
Proof.
  induction n as [c|es IH] using Files.node_induction; intros pre p Hp.
  - contradiction.
  - cbn [walk] in Hp. apply in_app_or in Hp as [Hp | Hp].
    + unfold matching in Hp.
      apply in_map_iff in Hp as ([name c] & <- & Hf).
      apply filter_In in Hf as [_ M]. cbn [fst] in *.
      exists [name]. split; [reflexivity|]. split; [discriminate | exact M].
    + induction es as [|[x c] tl IHl]; [contradiction|].
      inversion IH as [|? ? Hc Htl]; subst. cbn [snd] in Hc.
      apply in_app_or in Hp as [Hp | Hp].
      * destruct (Hc _ _ Hp) as (rest & -> & Hr & M).
        exists (x :: rest). rewrite <- app_assoc.
        split; [reflexivity|]. split; [discriminate|].
        destruct rest; [contradiction | exact M].
      * exact (IHl Htl Hp).
Qed.

End Tree.

Module Steps.

Lemma flat_in_recursive root folder p :
  In p (find_images root folder false) -> In p (find_images root folder true).
Proof.
  unfold find_images. rewrite !in_flat_map.
  intros (ext & Hext & Hp). exists ext. split; [exact Hext|].
  unfold glob in Hp. unfold rglob.
  destruct (lookup root folder) as [[c|es]|]; try contradiction.
  cbn [walk]. apply in_or_app. left. exact Hp.
Qed.

Lemma resize_image_one_message raises p out w :
  exists m,
    stdout (snd (resize_image raises p out w)) = (stdout w ++ [m])%list.
Proof.
  unfold resize_image.
  destruct (resize_body raises (fs w) p out) as [[im outp]|e];
    [destruct (Image_save raises (fs w) im outp) as [root' [[]|e]]|];
    eexists; reflexivity.
Qed.

Lemma process_file_one_message raises p w :
  exists m, stdout (snd (process_file raises p w)) = (stdout w ++ [m])%list.
Proof.
  unfold process_file.
  destruct (negb (isfile (fs w) p)); [eexists; reflexivity|].
  destruct (negb (is_supported_image p)); [eexists; reflexivity|].
  apply resize_image_one_message.
Qed.

(** Whether it succeeds or fails, a run changes the file system at its
    output path only. *)
Lemma resize_image_frame raises p out w ok w' :
  resize_image raises p out w = (ok, w') ->
  forall q,
    q <> output_path_of p out ->
    Image_open (fs w') q = Image_open (fs w) q
    /\ isfile (fs w') q = isfile (fs w) q
    /\ isdir (fs w') q = isdir (fs w) q.
Proof.
  intros R q Hq. destruct ok.
  - destruct (Run.resize_image_true_fs raises p out w w' R)
      as (img & nw & nh & _ & _ & _ & _ & _ & _ & W).
    exact (Disk.write_frame _ _ _ _ q W Hq).
  - destruct (Run.resize_image_false raises p out w w' R)
      as (e & root' & -> & [-> | W]); cbn [print fs]; [auto|].
    exact (Disk.write_frame _ _ _ _ q W Hq).
Qed.

(** Resizing paths below a folder changes nothing outside it. *)
Lemma count_loop_frame raises folder q :
  (forall rest, q <> (folder ++ rest)%list) ->
  forall l s f w,
    (forall p, In p l -> exists rest, p = (folder ++ rest)%list /\ rest <> []) ->
    Image_open
      (fs (snd (count_loop (fun p => resize_image raises p None) l s f w))) q
    = Image_open (fs w) q.
Proof.
  intros Out. induction l as [|p l IH]; intros s f w Below; [reflexivity|].
  cbn [count_loop].
  destruct (Below p (or_introl eq_refl)) as (rest & -> & Hn).
  assert (St : Image_open
                 (fs (snd (resize_image raises (folder ++ rest)%list
                                        None w))) q
               = Image_open (fs w) q).
  { destruct (resize_image raises (folder ++ rest)%list None w)
      as [ok w2] eqn:R; cbn [snd].
    apply (resize_image_frame raises _ None w ok w2 R).
    cbn [output_path_of]. unfold default_output, parent.
    rewrite removelast_app by exact Hn. rewrite <- app_assoc.
    apply Out. }
  destruct (resize_image raises (folder ++ rest)%list None w)
    as [[|] w2]; cbn [snd] in St;
    rewrite (IH _ _ _ (fun p' Hp' => Below p' (or_intror Hp'))); exact St.
Qed.

End Steps.

Module Batch.

Section WithPillow.

Variable raises : pil_call -> bool.
Variable recursive : bool.

Lemma process_folder_nonneg folder w :
  0 <= fst (fst (process_folder raises folder recursive w))
  /\ 0 <= snd (fst (process_folder raises folder recursive w)).
Proof.
  unfold process_folder.
  destruct (negb (isdir (fs w) folder)); [cbn; lia|].
  destruct (find_images (fs w) folder recursive) as [|p l]; [cbn; lia|].
  apply Run.count_loop_mono.
Qed.

Lemma batch_loop_app l1 l2 :
  forall s f w,
    batch_loop raises (l1 ++ l2)%list recursive s f w
    = (let '((s1, f1), w1) := batch_loop raises l1 recursive s f w in
       batch_loop raises l2 recursive s1 f1 w1).
Proof.
  induction l1 as [|p rest IH]; intros s f w; cbn [batch_loop app].
  - reflexivity.
  - destruct (process_folder raises p recursive w) as [[s1 f1] w1].
    apply IH.
Qed.

Lemma batch_loop_mono paths :
  forall s f w,
    s <= fst (fst (batch_loop raises paths recursive s f w))
    /\ f <= snd (fst (batch_loop raises paths recursive s f w)).
Proof.
  induction paths as [|p rest IH]; intros s f w; cbn [batch_loop].
  - cbn [fst snd]. lia.
  - pose proof (process_folder_nonneg p w) as N.
    destruct (process_folder raises p recursive w) as [[s1 f1] w1].
    cbn [fst snd] in N.
    destruct (IH (s + s1) (f + f1) w1). lia.
Qed.

End WithPillow.

End Batch.

(** X7.  [process_file] prints exactly one message; whether it succeeds
    or fails, every path other than the default output path opens as
    before and is a file or a directory as before, the source among them;
    and when it succeeds the path was a file with a supported extension
    that decoded, and a 3000 x 3000 image can be opened at the default
    output path. *)
Theorem process_file_outcome raises p w :
  let '(ok, w') := process_file raises p w in
  (exists m, stdout w' = (stdout w ++ [m])%list)
  /\ (forall q,
         q <> default_output p ->
         Image_open (fs w') q = Image_open (fs w) q
         /\ isfile (fs w') q = isfile (fs w) q
         /\ isdir (fs w') q = isdir (fs w) q)
  /\ Image_open (fs w') p = Image_open (fs w) p
  /\ (ok = true ->
      isfile (fs w) p = true /\ is_supported_image p = true
      /\ exists img canvas,
          Image_open (fs w) p = Ok img
          /\ Image_open (fs w') (default_output p) = Ok canvas
          /\ size canvas = (TARGET_SIZE, TARGET_SIZE)).
Proof.
  pose proof (Steps.process_file_one_message raises p w) as One.
  unfold process_file in *.
  destruct (isfile (fs w) p) eqn:F; cbn [negb] in *;
    [|split; [exact One | split; [auto | split; [reflexivity | discriminate]]]].
  destruct (is_supported_image p) eqn:S; cbn [negb] in *;
    [|split; [exact One | split; [auto | split; [reflexivity | discriminate]]]].
  destruct (resize_image raises p None w) as [ok w'] eqn:R.
  cbn [snd] in One. split; [exact One|].
  pose proof (Steps.resize_image_frame raises p None w ok w' R) as Fr.
  cbn [output_path_of] in Fr.
  split; [exact Fr|].
  split.
  { apply Fr. intros E. exact (Names.default_output_differs p (eq_sym E)). }
  intros ->. split; [reflexivity|]. split; [reflexivity|].
  destruct (Run.resize_image_true raises p None w w' R)
    as (img & nw & nh & O & _ & L & _).
  exists img, (composite img nw nh). split; [exact O|].
  cbn [output_path_of] in L. unfold Image_open. rewrite L. auto.
Qed.

Lemma process_file_outcome_witness :
  fst (process_file save_fails ["wide.png"] wide_done) = false
  /\ lookup (fs (snd (process_file save_fails ["wide.png"] wide_done)))
            (default_output ["wide.png"]) = Some (File None)
  /\ Image_open (fs (snd (process_file save_fails ["wide.png"] wide_done)))
                ["wide.png"]
     = Image_open (fs wide_done) ["wide.png"].
Proof.
  split; [reflexivity|]. split; [reflexivity|].
  pose proof (process_file_outcome save_fails ["wide.png"] wide_done) as H.
  destruct (process_file save_fails ["wide.png"] wide_done) as [ok w'].
  cbn [snd]. destruct H as (_ & _ & H & _). exact H.
Defined.

(** X8.  A run of [resize_image] that succeeds changes the file system at
    its output path only: every other path opens as before and is a file
    or a directory as before; with the default output path the source
    itself is among them. *)
Theorem resize_touches_only_output raises p out w w' :
  resize_image raises p out w = (true, w') ->
  (forall q,
      q <> output_path_of p out ->
      Image_open (fs w') q = Image_open (fs w) q
      /\ isfile (fs w') q = isfile (fs w) q
      /\ isdir (fs w') q = isdir (fs w) q)
  /\ (out = None -> Image_open (fs w') p = Image_open (fs w) p).
Proof.
  intros R.
  pose proof (Steps.resize_image_frame raises p out w true w' R) as Fr.
  split; [exact Fr|].
  intros ->. apply Fr. cbn [output_path_of]. intros E.
  exact (Names.default_output_differs p (eq_sym E)).
Qed.

Lemma resize_touches_only_output_witness :
  (forall q,
      q <> output_path_of ["wide.png"] None ->
      Image_open (fs wide_done) q = Image_open (fs photos_world) q
      /\ isfile (fs wide_done) q = isfile (fs photos_world) q
      /\ isdir (fs wide_done) q = isdir (fs photos_world) q)
  /\ (@None path = None ->
      Image_open (fs wide_done) ["wide.png"]
      = Image_open (fs photos_world) ["wide.png"]).
Proof.
  apply (resize_touches_only_output never ["wide.png"] None photos_world
                                    wide_done).
  reflexivity.
Defined.

(** X9.  The default output path lies in the directory of the input, its
    name always carries the suffix [.png], so it is itself a supported
    image name, and it is never the input path. *)
Theorem default_output_shape p :
  parent (default_output p) = parent p
  /\ suffix (name_of (default_output p)) = ".png"
  /\ is_supported_image (default_output p) = true
  /\ default_output p <> p.
Proof.
  assert (N : name_of (default_output p)
              = (stem (name_of p) ++ "_3000x3000.png")%string)
    by (unfold default_output, name_of at 1; apply last_last).
  split; [unfold default_output, parent at 1; apply removelast_last|].
  split; [rewrite N; apply Names.suffix_of_output|].
  split; [|apply Names.default_output_differs].
  unfold is_supported_image. rewrite N, Names.suffix_of_output. reflexivity.
Qed.

(** X10.  The output of a run with the default output path is found by
    the next batch run over the folder of the input, with or without
    recursion. *)
Theorem output_is_rediscovered raises p w w' :
  resize_image raises p None w = (true, w') ->
  In (default_output p) (find_images (fs w') (parent p) false)
  /\ In (default_output p) (find_images (fs w') (parent p) true).
Proof.
  intros R.
  destruct (Run.resize_image_true_fs raises p None w w' R)
    as (img & nw & nh & _ & _ & _ & _ & _ & _ & W).
  cbn [output_path_of] in W. unfold default_output in W |- *.
  destruct (Disk.write_parent_entry _ _ _ _ _ W) as (es & L & I).
  assert (F : In (parent p ++ [(stem (name_of p) ++ "_3000x3000.png")%string])%list
                 (find_images (fs w') (parent p) false)).
  { apply (Files.find_images_flat (fs w') (parent p) es L).
    eexists. eexists. split; [exact I|]. split; [reflexivity|].
    apply existsb_exists. exists ".png". split; [simpl; auto|].
    apply Names.ends_with_append. reflexivity. }
  split; [exact F | apply Steps.flat_in_recursive, F].
Qed.

Lemma output_is_rediscovered_witness :
  In (default_output ["wide.png"]) (find_images (fs wide_done) (parent ["wide.png"]) false)
  /\ In (default_output ["wide.png"]) (find_images (fs wide_done) (parent ["wide.png"]) true).
Proof.
  apply (output_is_rediscovered never ["wide.png"] photos_world wide_done).
  reflexivity.
Defined.

(** X11.  [is_supported_image] ignores the case of the file name: two
    paths whose final names are equal once lowered get the same answer. *)
Theorem support_ignores_case p q :
  lower (name_of p) = lower (name_of q) ->
  is_supported_image p = is_supported_image q.
Proof.
  intros E. unfold is_supported_image.
  rewrite <- !Names.lower_suffix, E. reflexivity.
Qed.

Lemma support_ignores_case_witness :
  is_supported_image ["shots"; "Pic.JPeG"] = is_supported_image ["PIC.jpeg"].
Proof.
  apply (support_ignores_case ["shots"; "Pic.JPeG"] ["PIC.jpeg"]).
  reflexivity.
Defined.

(** X12.  [process_folder] counts every path it discovers exactly once:
    the two counts are not negative and add up to the number of paths
    found, and to 0 when the folder is not a directory. *)
Theorem process_folder_counts_every_found_path raises folder_path recursive w :
  let '(success_count, failure_count) :=
    fst (process_folder raises folder_path recursive w) in
  0 <= success_count /\ 0 <= failure_count
  /\ success_count + failure_count
     = if isdir (fs w) folder_path
       then Z.of_nat (List.length (find_images (fs w) folder_path recursive))
       else 0.
Proof.
  unfold process_folder.
  destruct (isdir (fs w) folder_path); cbn [negb fst]; [|lia].
  destruct (find_images (fs w) folder_path recursive) as [|p l] eqn:F;
    cbn [fst]; [cbn; lia|].
  set (step := fun q => resize_image raises q None).
  set (w1 := print _ w).
  pose proof (Run.count_loop_total step (p :: l) 0 0 w1) as T.
  pose proof (Run.count_loop_mono step (p :: l) 0 0 w1) as M.
  destruct (fst (count_loop step (p :: l) 0 0 w1)) as [s f].
  cbn [fst snd] in T, M. lia.
Qed.

(** X13.  Without any path [main] leaves with status 2 and prints
    nothing.  With at least one path it prints a rule, the summary of the
    two totals and a rule after everything else, the totals being those of
    [process_files] in file mode and those of the folders in batch mode,
    and the status is 0 when the total of failures is 0 and 1 otherwise.
    In file mode the status is 0 exactly when every path succeeded.  In
    batch mode a folder with a failure, processed in the world the folders
    before it left, makes the status 1 whatever the other folders give. *)
Theorem main_exit_status raises paths batch recursive w :
  (paths = [] -> main raises paths batch recursive w = (2, w))
  /\ (paths <> [] ->
      let '((total_success, total_failure), w1) :=
        if batch then batch_loop raises paths recursive 0 0 w
        else process_files raises paths w in
      main raises paths batch recursive w
      = ((if total_failure =? 0 then 0 else 1),
         print (Rule false)
               (print (Summary total_success total_failure)
                      (print (Rule true) w1)))
      /\ 0 <= total_success /\ 0 <= total_failure)
  /\ (paths <> [] -> batch = false ->
      (fst (main raises paths batch recursive w) = 0
       <-> fst (fst (process_files raises paths w))
           = Z.of_nat (List.length paths))
      /\ (fst (main raises paths batch recursive w) = 0
          \/ fst (main raises paths batch recursive w) = 1))
  /\ (batch = true ->
      forall before folder_path after,
        paths = (before ++ folder_path :: after)%list ->
        snd (fst (process_folder raises folder_path recursive
                    (snd (batch_loop raises before recursive 0 0 w)))) <> 0 ->
        fst (main raises paths batch recursive w) = 1).
Proof.
  split; [intros ->; reflexivity|].
  split.
  { intros Hp. destruct paths as [|p0 rest]; [congruence|].
    unfold main. destruct batch.
    - pose proof (Batch.batch_loop_mono raises recursive (p0 :: rest) 0 0 w)
        as M.
      destruct (batch_loop raises (p0 :: rest) recursive 0 0 w)
        as [[s f] w1].
      cbn [fst snd] in M. split; [reflexivity | exact M].
    - unfold process_files.
      pose proof (Run.count_loop_mono (process_file raises) (p0 :: rest)
                    0 0 w) as M.
      destruct (count_loop (process_file raises) (p0 :: rest) 0 0 w)
        as [[s f] w1].
      cbn [fst snd] in M. split; [reflexivity | exact M]. }
  split.
  { intros Hp ->. destruct paths as [|p0 rest]; [congruence|].
    unfold main, process_files.
    pose proof (Run.count_loop_total (process_file raises) (p0 :: rest)
                  0 0 w) as T.
    pose proof (Run.count_loop_mono (process_file raises) (p0 :: rest)
                  0 0 w) as M.
    destruct (count_loop (process_file raises) (p0 :: rest) 0 0 w)
      as [[s f] w1].
    cbn [fst snd] in T, M |- *. rewrite !Z.add_0_l.
    destruct (Z.eqb_spec f 0); split; try split; intros; auto; lia. }
  intros -> before folder_path after -> Hf.
  destruct before as [|b0 before'].
  - cbn [app batch_loop snd] in *. unfold main. cbn [batch_loop].
    pose proof (Batch.process_folder_nonneg raises recursive folder_path w)
      as N.
    destruct (process_folder raises folder_path recursive w)
      as [[s1 f1] w1].
    cbn [fst snd] in Hf, N.
    pose proof (Batch.batch_loop_mono raises recursive after
                  (0 + s1) (0 + f1) w1) as M.
    destruct (batch_loop raises after recursive (0 + s1) (0 + f1) w1)
      as [[s f] w2].
    cbn [fst snd] in M |- *.
    destruct (Z.eqb_spec f 0); [lia | reflexivity].
  - change ((b0 :: before') ++ folder_path :: after)%list
      with (b0 :: (before' ++ folder_path :: after))%list.
    unfold main.
    change (b0 :: (before' ++ folder_path :: after))%list
      with ((b0 :: before') ++ folder_path :: after)%list.
    rewrite Batch.batch_loop_app.
    pose proof (Batch.batch_loop_mono raises recursive (b0 :: before')
                  0 0 w) as M0.
    destruct (batch_loop raises (b0 :: before') recursive 0 0 w)
      as [[s0 f0] w0].
    cbn [fst snd] in M0, Hf. cbn [batch_loop].
    pose proof (Batch.process_folder_nonneg raises recursive folder_path w0)
      as N.
    destruct (process_folder raises folder_path recursive w0)
      as [[s1 f1] w1].
    cbn [fst snd] in Hf, N.
    pose proof (Batch.batch_loop_mono raises recursive after
                  (s0 + s1) (f0 + f1) w1) as M.
    destruct (batch_loop raises after recursive (s0 + s1) (f0 + f1) w1)
      as [[s f] w2].
    cbn [fst snd] in M |- *.
    destruct (Z.eqb_spec f 0); [lia | reflexivity].
Qed.

Lemma main_exit_status_witness :
  fst (main never [["docs"]; []] true false photos_world) = 1.
Proof.
  apply (proj2 (proj2 (proj2
           (main_exit_status never [["docs"]; []] true false photos_world)))
           eq_refl [["docs"]] [] []).
  - reflexivity.
  - vm_compute. discriminate.
Defined.

(** X14.  [process_files] prints exactly one message per path, after
    whatever was printed before. *)
Theorem process_files_prints_one_line_per_path raises file_paths w :
  exists msgs,
    stdout (snd (process_files raises file_paths w))
    = (stdout w ++ msgs)%list
    /\ List.length msgs = List.length file_paths.
Proof.
  unfold process_files.
  apply Loop.count_loop_stdout. apply Steps.process_file_one_message.
Qed.

(** X15.  Processing a list of paths is processing a first part and then
    the rest in the world the first part left: the counts add up. *)
Theorem process_files_of_concatenation raises paths1 paths2 w :
  process_files raises (paths1 ++ paths2) w
  = (let '((s1, f1), w1) := process_files raises paths1 w in
     let '((s2, f2), w2) := process_files raises paths2 w1 in
     ((s1 + s2, f1 + f2), w2)).
Proof.
  unfold process_files. rewrite Loop.count_loop_app.
  destruct (count_loop (process_file raises) paths1 0 0 w) as [[s1 f1] w1].
  apply Loop.count_loop_shift.
Qed.

(** X16.  With recursion batch mode finds whatever it finds without
    recursion in the folder itself and in every directory below it, at any
    depth. *)
Theorem recursive_covers_every_subdirectory root folder rest p :
  isdir root (folder ++ rest)%list = true ->
  In p (find_images root (folder ++ rest)%list false) ->
  In p (find_images root folder true).
Proof.
  unfold isdir. intros D.
  destruct (lookup root (folder ++ rest)%list) as [[c|es]|] eqn:L;
    try discriminate.
  unfold find_images. rewrite !in_flat_map.
  intros (ext & Hext & Hp). exists ext. split; [exact Hext|].
  unfold glob in Hp. rewrite L in Hp. unfold rglob.
  rewrite Tree.lookup_app in L.
  destruct (lookup root folder) as [n|]; [|discriminate].
  exact (Tree.walk_covers _ rest n folder es L p Hp).
Qed.

Lemma recursive_covers_every_subdirectory_witness :
  In ["trip"; "day1"; "beach.webp"] (find_images album [] true).
Proof.
  apply (recursive_covers_every_subdirectory album [] ["trip"; "day1"]
                                             ["trip"; "day1"; "beach.webp"]).
  - reflexivity.
  - simpl. auto.
Defined.

(** X18.  Every path batch mode finds with recursion lies strictly below
    the folder, and its final name ends in one of the supported extensions
    as written, in lower case. *)
Theorem recursive_discovery_stays_below root folder p :
  In p (find_images root folder true) ->
  exists rest,
    p = (folder ++ rest)%list /\ rest <> []
    /\ existsb (ends_with (name_of p)) SUPPORTED_FORMATS = true.
Proof.
  unfold find_images. rewrite in_flat_map.
  intros (ext & Hext & Hp). unfold rglob in Hp.
  destruct (lookup root folder) as [n|]; [|contradiction].
  destruct (Tree.walk_below _ n folder p Hp) as (rest & -> & Hr & M).
  exists rest. split; [reflexivity|]. split; [exact Hr|].
  apply existsb_exists. exists ext. split; [exact Hext|].
  destruct (Files.supported_literal ext Hext) as [Lit _].
  change ("*" ++ ext) with (String "*" ext) in M.
  rewrite (Files.fnmatch_star ext Lit) in M.
  unfold name_of. rewrite Tree.last_app by exact Hr. exact M.
Qed.

Lemma recursive_discovery_stays_below_witness :
  exists rest,
    ["trip"; "day1"; "beach.webp"] = (["trip"] ++ rest)%list /\ rest <> []
    /\ existsb (ends_with (name_of ["trip"; "day1"; "beach.webp"]))
               SUPPORTED_FORMATS = true.
Proof.
  apply (recursive_discovery_stays_below album ["trip"]
                                         ["trip"; "day1"; "beach.webp"]).
  simpl. auto.
Defined.

(** X17.  Without recursion batch mode finds exactly the direct entries
    of the folder whose name ends in one of the supported extensions as
    written, in lower case; nothing below a subdirectory is found. *)
Theorem flat_discovery_is_by_lowercase_suffix root folder p :
  isdir root folder = true ->
  In p (find_images root folder false)
  <-> exists name,
      p = (folder ++ [name])%list
      /\ In name (listed_names root folder false)
      /\ existsb (ends_with name) SUPPORTED_FORMATS = true.
Proof.
  unfold isdir, listed_names. intros D.
  destruct (lookup root folder) as [[c|es]|] eqn:L; try discriminate.
  rewrite (Files.find_images_flat root folder es L). split.
  - intros (name & c & I & E & X). exists name. split; [exact E|].
    split; [|exact X]. apply in_map_iff. exists (name, c). auto.
  - intros (name & E & I & X).
    apply in_map_iff in I as ([name' c] & <- & I).
    exists name', c. auto.
Qed.

Lemma flat_discovery_is_by_lowercase_suffix_witness :
  In ["wide.png"] (find_images photos [] false).
Proof.
  apply (flat_discovery_is_by_lowercase_suffix photos [] ["wide.png"]).
  - reflexivity.
  - exists "wide.png". split; [reflexivity|].
    split; [simpl; auto | reflexivity].
Defined.

(** X19.  A run of [resize_image] succeeds only if Pillow raised neither
    on the resize to the scaled size, nor on the new canvas, nor on the
    save of the composite at the output path. *)
Theorem success_needs_pillow_calls raises p out w w' :
  resize_image raises p out w = (true, w') ->
  exists img new_width new_height,
    Image_open (fs w) p = Ok img
    /\ scaled_size (fst (size img)) (snd (size img))
       = Ok (new_width, new_height)
    /\ raises (CallResize img (new_width, new_height)) = false
    /\ raises (CallNew (if wants_alpha img then "RGBA" else "RGB")
                       (TARGET_SIZE, TARGET_SIZE)
                       (if wants_alpha img then [0; 0; 0; 0] else [0; 0; 0]))
       = false
    /\ raises (CallSave (composite img new_width new_height)
                        (output_path_of p out)) = false.
Proof.
  intros R.
  destruct (Run.resize_image_true_fs raises p out w w' R)
    as (img & nw & nh & O & S & _ & _ & B & Sv & _).
  exists img, nw, nh. split; [exact O|]. split; [exact S|].
  unfold resize_body in B. rewrite O in B. cbn [bind] in B.
  destruct (size img) as [sw sh]. cbn [fst snd] in S.
  rewrite S in B. cbn [bind] in B.
  unfold Image_resize, Image_new, Image_convert, Image_paste, pil in B.
  destruct (raises (CallResize img (nw, nh))); cbn [bind fst snd] in B;
    [discriminate|].
  split; [reflexivity|]. split; [|exact Sv].
  destruct ((nw <? 1) || (nh <? 1))%bool; cbn [bind] in B; [discriminate|].
  destruct (wants_alpha img);
    match type of B with
    | context [raises (CallNew ?m ?s ?c)] =>
        destruct (raises (CallNew m s c)); cbn [bind] in B;
        [discriminate | reflexivity]
    end.
Qed.

Lemma success_needs_pillow_calls_witness :
  exists img new_width new_height,
    Image_open (fs photos_world) ["wide.png"] = Ok img
    /\ scaled_size (fst (size img)) (snd (size img))
       = Ok (new_width, new_height)
    /\ never (CallResize img (new_width, new_height)) = false
    /\ never (CallNew (if wants_alpha img then "RGBA" else "RGB")
                      (TARGET_SIZE, TARGET_SIZE)
                      (if wants_alpha img then [0; 0; 0; 0] else [0; 0; 0]))
       = false
    /\ never (CallSave (composite img new_width new_height)
                       (output_path_of ["wide.png"] None)) = false.
Proof.
  apply (success_needs_pillow_calls never ["wide.png"] None photos_world
                                    wide_done).
  reflexivity.
Defined.

(** X20.  [process_folder] touches nothing outside its folder: a path
    that does not extend the folder path opens after the call as it did
    before. *)
Theorem process_folder_stays_in_folder raises folder_path recursive w q :
  (forall rest, q <> (folder_path ++ rest)%list) ->
  Image_open (fs (snd (process_folder raises folder_path recursive w))) q
  = Image_open (fs w) q.
Proof.
  intros Out. unfold process_folder.
  destruct (isdir (fs w) folder_path); cbn [negb]; [|reflexivity].
  destruct (find_images (fs w) folder_path recursive) as [|p0 l0] eqn:F;
    [reflexivity|].
  rewrite <- F.
  assert (Below : forall p,
             In p (find_images (fs w) folder_path recursive) ->
             exists rest, p = (folder_path ++ rest)%list /\ rest <> []).
  { intros p Hp.
    assert (Hr : In p (find_images (fs w) folder_path true))
      by (destruct recursive; [exact Hp | apply Steps.flat_in_recursive, Hp]).
    unfold find_images in Hr. apply in_flat_map in Hr as (ext & _ & Hr).
    unfold rglob in Hr.
    destruct (lookup (fs w) folder_path) as [n|]; [|contradiction].
    destruct (Tree.walk_below _ n folder_path p Hr) as (rest & E & Hn & _).
    exists rest. auto. }
  exact (Steps.count_loop_frame raises folder_path q Out _ 0 0 _ Below).
Qed.

Lemma process_folder_stays_in_folder_witness :
  fst (process_folder never ["trip"] true trip_world) = (1, 0)
  /\ Image_open (fs (snd (process_folder never ["trip"] true trip_world)))
                ["cover.jpg"]
     = Image_open (fs trip_world) ["cover.jpg"].
Proof.
  split; [reflexivity|].
  apply (process_folder_stays_in_folder never ["trip"] true trip_world
                                        ["cover.jpg"]).
  intros rest. discriminate.
Defined.
